(** * GitHub-for-Jira: token lifecycle, token cache and GitHub app client

    A shallow embedding of
      - [src/github/client/github-app-client.ts]   (module [Client]),
      - [src/transforms/transform-repository-id.ts] (module [Transform]),
    together with the two collaborators of the client whose source files are
    not part of the tree under [src/] ([AppTokenHolder] and
    [InstallationTokenCache]); these two are modelled from the written
    specification and every such definition says so.

    Conventions.
      - Instants ([Date]) are integers: milliseconds since the epoch.
      - A rejected promise / thrown exception is the [Err] case of [result].
      - JavaScript strings are [string]; numbers that are identifiers
        (installation ids, repository ids) are integers in [Z]. *)

From Stdlib Require Import ZArith String Ascii List Lia DecimalString.
From Stdlib Require DecimalPos DecimalZ.
From stdpp Require Import gmap list strings.

Open Scope string_scope.
Open Scope Z_scope.

(** ** Shared contracts *)

Inductive result (E A : Type) : Type :=
| Ok (a : A)
| Err (e : E).
Arguments Ok {E A} a.
Arguments Err {E A} e.

(** [AuthToken]: a bearer string together with its expiry instant.  The value
    is immutable: no operation below edits a token in place. *)
Record AuthToken : Type := mkAuthToken {
  token : string;
  expiresAt : Z
}.

(** The safety-margin expiry check, a pure comparison
    [now + margin >= expiresAt]. *)
Definition isAboutToExpire (margin now : Z) (t : AuthToken) : bool :=
  expiresAt t <=? now + margin.

Lemma isAboutToExpire_false margin now t :
  isAboutToExpire margin now t = false <-> now + margin < expiresAt t.
Proof. unfold isAboutToExpire. rewrite Z.leb_gt. tauto. Qed.

Lemma isAboutToExpire_true margin now t :
  isAboutToExpire margin now t = true <-> expiresAt t <= now + margin.
Proof. unfold isAboutToExpire. apply Z.leb_le. Qed.

Lemma isAboutToExpire_mono margin now now' t :
  now <= now' -> isAboutToExpire margin now t = true ->
  isAboutToExpire margin now' t = true.
Proof. rewrite !isAboutToExpire_true. lia. Qed.

(** The example figures of the specification: a ten-minute validity horizon
    and a one-minute safety margin, in milliseconds. *)
Definition ONE_MINUTE : Z := 60 * 1000.
Definition TEN_MINUTES : Z := 10 * ONE_MINUTE.

(** ** AppTokenHolder *)

Module AppTokenHolder.

(** The claims set that is signed. *)
Record Claims : Type := mkClaims {
  iat : Z;
  exp : Z;
  iss : string
}.

(** Modelled from the spec: the holder's state.  [app-token-holder.ts] is not
    under [src/]; only its test and its caller are.  One holder serves one app
    identity (app id and private key) and caches at most one token.
    [signings] is a ghost counter of the signing operations performed. *)
Record t : Type := mkHolder {
  privateKey : string;
  appId : string;
  cached : option AuthToken;
  signings : nat
}.

Inductive Failure : Type :=
| SigningFailure.

Definition create (key app : string) : t :=
  {| privateKey := key; appId := app; cached := None; signings := 0 |}.

Section Holder.

(** The asymmetric signature is an external primitive; [None] is a signing
    failure (malformed key, unsupported algorithm). *)
Variable sign : string -> Claims -> option string.
(** The validity horizon of a freshly signed token and the safety margin. *)
Variables horizon margin : Z.

(** Modelled from the spec: sign a new token over issued-at, expires-at and
    the app identifier, cache it and return it. *)
Definition signNew (now : Z) (h : t) : result Failure AuthToken * t :=
  let claims := {| iat := now; exp := now + horizon; iss := appId h |} in
  match sign (privateKey h) claims with
  | Some s =>
      let tok := mkAuthToken s (now + horizon) in
      (Ok tok,
       {| privateKey := privateKey h; appId := appId h;
          cached := Some tok; signings := S (signings h) |})
  | None =>
      (Err SigningFailure,
       {| privateKey := privateKey h; appId := appId h;
          cached := cached h; signings := S (signings h) |})
  end.

(** Modelled from the spec: [getAppToken()].  A cached token that is not
    about to expire is returned unchanged; otherwise a new one is signed. *)
Definition getAppToken (now : Z) (h : t) : result Failure AuthToken * t :=
  match cached h with
  | Some tok => if isAboutToExpire margin now tok then signNew now h else (Ok tok, h)
  | None => signNew now h
  end.

(** A sequence of calls at the given instants, threading the holder. *)
Fixpoint getAppTokens (nows : list Z) (h : t) : list (result Failure AuthToken) * t :=
  match nows with
  | [] => ([], h)
  | now :: rest =>
      let '(r, h1) := getAppToken now h in
      let '(rs, h2) := getAppTokens rest h1 in
      (r :: rs, h2)
  end.

(** The property of the token test of the specification, read literally:
    the window is measured from any prior call. *)
Definition window_from_any_prior_call : Prop :=
  forall h now1 now2 t1 h1 t2 h2,
    getAppToken now1 h = (Ok t1, h1) ->
    now1 <= now2 < now1 + (horizon - margin) ->
    getAppToken now2 h1 = (Ok t2, h2) ->
    token t2 = token t1 /\ signings h2 = signings h1.

Lemma getAppToken_caches now h tok h1 :
  getAppToken now h = (Ok tok, h1) -> cached h1 = Some tok.
Proof.
  unfold getAppToken, signNew.
  destruct (cached h) as [c|] eqn:Hc.
  - destruct (isAboutToExpire margin now c).
    + destruct (sign _ _); intros [= <- <-]; reflexivity.
    + intros [= <- <-]; assumption.
  - destruct (sign _ _); intros [= <- <-]; reflexivity.
Qed.

Lemma getAppToken_hit now h tok :
  cached h = Some tok -> now + margin < expiresAt tok ->
  getAppToken now h = (Ok tok, h).
Proof.
  intros Hc Hv. unfold getAppToken. rewrite Hc.
  apply isAboutToExpire_false in Hv. rewrite Hv. reflexivity.
Qed.

Lemma getAppToken_signed_expiry now h tok h1 :
  getAppToken now h = (Ok tok, h1) -> signings h1 = S (signings h) ->
  expiresAt tok = now + horizon.
Proof.
  unfold getAppToken, signNew.
  destruct (cached h) as [c|] eqn:Hc.
  - destruct (isAboutToExpire margin now c).
    + destruct (sign _ _); intros [= <- <-]; reflexivity.
    + intros [= <- <-] Hs. lia.
  - destruct (sign _ _); intros [= <- <-]; reflexivity.
Qed.

Lemma getAppTokens_hit nows h tok :
  cached h = Some tok ->
  Forall (fun now => now + margin < expiresAt tok) nows ->
  getAppTokens nows h = (map (fun _ => Ok tok) nows, h).
Proof.
  intros Hc Hall. induction Hall as [|now rest Hnow _ IH]; simpl.
  - reflexivity.
  - rewrite (getAppToken_hit now h tok Hc Hnow), IH. reflexivity.
Qed.

End Holder.

(** A toy signer used to run the model on concrete inputs: it renders the
    claims after the key, so tokens signed over different claims differ. *)
Definition demoSign (key : string) (c : Claims) : option string :=
  Some (key ++ "." ++ NilZero.string_of_int (Z.to_int (iat c))
            ++ "." ++ NilZero.string_of_int (Z.to_int (exp c))
            ++ "." ++ iss c).

(** The scenario of [app-token-holder.test.ts]: the same token after five
    minutes, a different one after ten. *)
Example regenerates_expired_tokens :
  let h0 := create "key" "42" in
  let t0 := 1637834400000 in
  let '(rs, _) := getAppTokens demoSign TEN_MINUTES ONE_MINUTE
                    [t0; t0 + 5 * ONE_MINUTE; t0 + 10 * ONE_MINUTE] h0 in
  match rs with
  | [Ok a; Ok b; Ok c] => a = b /\ token c <> token a
  | _ => False
  end.
Proof. vm_compute. split; [reflexivity | discriminate]. Qed.

(** C2, amended: once a call has signed a token at [now1], every later call
    made before [now1 + (horizon - margin)] returns that very token and
    signs nothing, whatever the interleaving of such calls. *)
Theorem getAppToken_within_window_of_signing
    (sign : string -> Claims -> option string) (horizon margin : Z)
    (h : t) (now1 : Z) (t1 : AuthToken) (h1 : t) (nows : list Z) :
  getAppToken sign horizon margin now1 h = (Ok t1, h1) ->
  signings h1 = S (signings h) ->
  Forall (fun now => now1 <= now < now1 + (horizon - margin)) nows ->
  getAppTokens sign horizon margin nows h1 = (map (fun _ => Ok t1) nows, h1).
Proof.
  intros Hcall Hsigned Hwin.
  pose proof (getAppToken_caches _ _ _ _ _ _ _ Hcall) as Hc.
  pose proof (getAppToken_signed_expiry _ _ _ _ _ _ _ Hcall Hsigned) as He.
  apply getAppTokens_hit; [assumption|].
  eapply Forall_impl; [exact Hwin|]. simpl. intros now Hn. lia.
Qed.

Definition demoToken : AuthToken := mkAuthToken "key.0.600000.42" 600000.

Definition demoHolder : t :=
  {| privateKey := "key"; appId := "42"; cached := Some demoToken; signings := 1 |}.

Lemma getAppToken_within_window_of_signing_witness :
  getAppTokens demoSign TEN_MINUTES ONE_MINUTE [300000; 539999; 0] demoHolder
  = (map (fun _ => Ok demoToken) [300000; 539999; 0], demoHolder).
Proof.
  apply (getAppToken_within_window_of_signing demoSign TEN_MINUTES ONE_MINUTE
           (create "key" "42") 0 demoToken demoHolder).
  - reflexivity.
  - reflexivity.
  - repeat constructor; vm_compute; congruence.
Defined.

(** C2 as stated fails: a call that merely returned the cached token does not
    restart the window.  The token signed at 0 expires at ten minutes; the
    call at 8:20 still returns it, the call at 9:00 (forty seconds later)
    signs a new one. *)
Lemma window_from_any_prior_call_fails :
  ~ window_from_any_prior_call demoSign TEN_MINUTES ONE_MINUTE.
Proof.
  intros H.
  pose (t2 := mkAuthToken "key.540000.1140000.42" 1140000).
  destruct (H demoHolder 500000 540000 demoToken demoHolder t2
              {| privateKey := "key"; appId := "42";
                 cached := Some t2; signings := 2 |}) as [Htok Hsig].
  - reflexivity.
  - vm_compute. split; congruence.
  - reflexivity.
  - discriminate Hsig.
Qed.

Example demoHolder_reachable :
  getAppToken demoSign TEN_MINUTES ONE_MINUTE 0 (create "key" "42")
  = (Ok demoToken, demoHolder).
Proof. reflexivity. Qed.

End AppTokenHolder.

(** ** A bounded least-recently-used store of tokens *)

Module LRU.

(** One slot of the store.  [lastAccess] is the reading of the store's
    logical clock at the last lookup or insertion of the key (ghost state:
    it makes "least recently accessed" a statement about the past). *)
Record Entry : Type := mkEntry {
  key : Z;
  value : AuthToken;
  lastAccess : nat
}.

(** Modelled from the spec: the bounded store behind the installation token
    cache ([installation-token-cache.ts] is not under [src/]).  [entries] is
    kept in recency order, the most recently accessed key first. *)
Record t : Type := mkStore {
  capacity : nat;
  entries : list Entry;
  ticks : nat
}.

Definition create (max : nat) : t :=
  {| capacity := max; entries := []; ticks := 0 |}.

Fixpoint peek (k : Z) (es : list Entry) : option Entry :=
  match es with
  | [] => None
  | e :: rest => if key e =? k then Some e else peek k rest
  end.

Fixpoint del (k : Z) (es : list Entry) : list Entry :=
  match es with
  | [] => []
  | e :: rest => if key e =? k then del k rest else e :: del k rest
  end.

(** Modelled from the spec: lookup in the bounded store.  A key that is
    present moves to the front of the recency order. *)
Definition get (k : Z) (c : t) : option AuthToken * t :=
  match peek k (entries c) with
  | Some e =>
      (Some (value e),
       {| capacity := capacity c;
          entries := mkEntry k (value e) (ticks c) :: del k (entries c);
          ticks := S (ticks c) |})
  | None => (None, c)
  end.

(** Modelled from the spec: insertion into the bounded store.  The key goes
    to the front; what no longer fits falls off the far end of the recency
    order. *)
Definition set (k : Z) (v : AuthToken) (c : t) : t :=
  {| capacity := capacity c;
     entries := take (capacity c) (mkEntry k v (ticks c) :: del k (entries c));
     ticks := S (ticks c) |}.

Definition cachedToken (k : Z) (c : t) : option AuthToken :=
  value <$> peek k (entries c).

Definition keys (c : t) : list Z := map key (entries c).

(** The least recently accessed entry: the far end of the recency order. *)
Definition oldest (c : t) : option Entry := last (entries c).

(** Recency order: keys are pairwise distinct and access times strictly
    decrease from the front to the back. *)
Fixpoint recent_first (es : list Entry) : Prop :=
  match es with
  | [] => True
  | e :: rest =>
      Forall (fun e' => key e' <> key e /\ (lastAccess e' < lastAccess e)%nat) rest
      /\ recent_first rest
  end.

Record wf (c : t) : Prop := mkWf {
  wf_bound : (length (entries c) <= capacity c)%nat;
  wf_order : recent_first (entries c);
  wf_ticks : Forall (fun e => (lastAccess e < ticks c)%nat) (entries c)
}.

Lemma peek_Some k es e : peek k es = Some e -> key e = k /\ e ∈ es.
Proof.
  induction es as [|x rest IH]; simpl; [discriminate|].
  destruct (key x =? k) eqn:E.
  - intros [= ->]. apply Z.eqb_eq in E. split; [assumption | left].
  - intros H. destruct (IH H). split; [assumption | right; assumption].
Qed.

Lemma peek_None k es : peek k es = None <-> k ∉ map key es.
Proof.
  induction es as [|x rest IH]; simpl.
  - split; [intros _; apply not_elem_of_nil | reflexivity].
  - rewrite not_elem_of_cons. destruct (key x =? k) eqn:E.
    + apply Z.eqb_eq in E. split; [discriminate | intros [? _]; congruence].
    + apply Z.eqb_neq in E. rewrite IH. split; [intros ?; split; congruence | tauto].
Qed.

Lemma del_subset k es e : e ∈ del k es -> e ∈ es.
Proof.
  induction es as [|x rest IH]; simpl; [tauto|].
  destruct (key x =? k).
  - intros H. right. auto.
  - rewrite !elem_of_cons. intros [->|H]; [left | right]; auto.
Qed.

Lemma del_length k es : (length (del k es) <= length es)%nat.
Proof.
  induction es as [|x rest IH]; simpl; [lia|].
  destruct (key x =? k); simpl; lia.
Qed.

Lemma del_length_present k es e :
  peek k es = Some e -> (S (length (del k es)) <= length es)%nat.
Proof.
  induction es as [|x rest IH]; simpl; [discriminate|].
  destruct (key x =? k).
  - intros _. pose proof (del_length k rest). lia.
  - intros H. specialize (IH H). simpl. lia.
Qed.

Lemma del_absent k es : peek k es = None -> del k es = es.
Proof.
  induction es as [|x rest IH]; simpl; [reflexivity|].
  destruct (key x =? k); [discriminate|]. intros H. rewrite IH; auto.
Qed.

Lemma peek_del_same k es : peek k (del k es) = None.
Proof.
  induction es as [|x rest IH]; simpl; [reflexivity|].
  destruct (key x =? k) eqn:E; [assumption|]. simpl. rewrite E. assumption.
Qed.

Lemma peek_del_other k k' es : k <> k' -> peek k (del k' es) = peek k es.
Proof.
  intros Hne. induction es as [|x rest IH]; simpl; [reflexivity|].
  destruct (key x =? k') eqn:E'; simpl.
  - apply Z.eqb_eq in E'. destruct (key x =? k) eqn:E; [|assumption].
    apply Z.eqb_eq in E. congruence.
  - rewrite IH. reflexivity.
Qed.

Lemma del_key k es e : e ∈ del k es -> key e <> k.
Proof.
  induction es as [|x rest IH]; simpl; [intros H; inversion H|].
  destruct (key x =? k) eqn:E; [assumption|].
  rewrite elem_of_cons. intros [->|H]; [apply Z.eqb_neq; assumption | auto].
Qed.

Lemma recent_first_del k es : recent_first es -> recent_first (del k es).
Proof.
  induction es as [|x rest IH]; simpl; [tauto|].
  intros [Hx Hrest]. destruct (key x =? k); [auto|].
  simpl. split; [|auto].
  rewrite Forall_forall in *. intros e He. apply Hx. eapply del_subset; eauto.
Qed.

Lemma recent_first_take n es : recent_first es -> recent_first (take n es).
Proof.
  revert n. induction es as [|x rest IH]; intros [|n]; simpl; try tauto.
  intros [Hx Hrest]. split; [|auto].
  rewrite Forall_forall in *. intros e He. apply Hx.
  eapply elem_of_take in He. destruct He as (i & He & _).
  eapply list_elem_of_lookup_2; eauto.
Qed.

Lemma recent_first_snoc front e :
  recent_first (front ++ [e]) ->
  recent_first front /\
  Forall (fun x => key x <> key e /\ (lastAccess e < lastAccess x)%nat) front.
Proof.
  induction front as [|x rest IH]; simpl.
  - intros _. split; [exact I | constructor].
  - intros [Hx Hrest]. destruct (IH Hrest) as [Hr Hall].
    apply Forall_app in Hx. destruct Hx as [Hx1 Hx2].
    split; [split; assumption|].
    constructor; [|assumption].
    inversion Hx2 as [|? ? [Hk Hl] _]; subst.
    split; [intros Heq; apply Hk; symmetry; exact Heq | exact Hl].
Qed.

Lemma peek_app k es1 es2 :
  peek k (es1 ++ es2) =
  match peek k es1 with Some e => Some e | None => peek k es2 end.
Proof.
  induction es1 as [|x rest IH]; simpl; [reflexivity|].
  destruct (key x =? k); [reflexivity | assumption].
Qed.

Lemma peek_take k n es :
  peek k (take n es) = peek k es \/ peek k (take n es) = None.
Proof.
  revert n. induction es as [|x rest IH]; intros [|n]; simpl; auto.
  destruct (key x =? k); auto.
Qed.

Lemma create_wf max : wf (create max).
Proof. split; simpl; [lia | exact I | constructor]. Qed.

Lemma get_capacity k c : capacity (get k c).2 = capacity c.
Proof. unfold get. destruct (peek k (entries c)); reflexivity. Qed.

Lemma set_capacity k v c : capacity (set k v c) = capacity c.
Proof. reflexivity. Qed.

Lemma get_wf k c : wf c -> wf (get k c).2.
Proof.
  intros [Hb Ho Ht]. unfold get.
  destruct (peek k (entries c)) as [e|] eqn:Hp; simpl; [|split; assumption].
  split; simpl.
  - pose proof (del_length_present _ _ _ Hp). lia.
  - split; [|apply recent_first_del; assumption].
    rewrite Forall_forall in *. intros x Hx. split.
    + eapply del_key; eauto.
    + apply Ht. eapply del_subset; eauto.
  - constructor; simpl; [lia|].
    rewrite Forall_forall in *. intros x Hx.
    apply del_subset in Hx. specialize (Ht x Hx). lia.
Qed.

Lemma set_bound k v c : (length (entries (set k v c)) <= capacity c)%nat.
Proof. simpl. rewrite length_take. lia. Qed.

Lemma set_wf k v c : wf c -> wf (set k v c).
Proof.
  intros [Hb Ho Ht]. split.
  - exact (set_bound k v c).
  - unfold set; cbn [entries]. apply recent_first_take. simpl. split.
    + rewrite Forall_forall in *. intros x Hx. split.
      * eapply del_key; eauto.
      * apply Ht. eapply del_subset; eauto.
    + apply recent_first_del; assumption.
  - unfold set; cbn [entries ticks].
    rewrite Forall_forall in *. intros x Hx.
    apply elem_of_take in Hx. destruct Hx as (i & Hx & _).
    apply list_elem_of_lookup_2 in Hx. apply elem_of_cons in Hx.
    destruct Hx as [->|Hx]; simpl; [lia|].
    apply del_subset in Hx. specialize (Ht x Hx). lia.
Qed.

(** A lookup changes the recency order only: every key keeps its token. *)
Lemma cachedToken_get k k' c : cachedToken k' (get k c).2 = cachedToken k' c.
Proof.
  unfold cachedToken, get.
  destruct (peek k (entries c)) as [e|] eqn:Hp; simpl; [|reflexivity].
  destruct (k =? k') eqn:E.
  - apply Z.eqb_eq in E. subst k'. rewrite Hp. reflexivity.
  - apply Z.eqb_neq in E. rewrite peek_del_other by congruence. reflexivity.
Qed.

Lemma get_result k c : (get k c).1 = cachedToken k c.
Proof.
  unfold cachedToken, get. destruct (peek k (entries c)); reflexivity.
Qed.

Lemma cachedToken_set_same k v c :
  (0 < capacity c)%nat -> cachedToken k (set k v c) = Some v.
Proof.
  intros Hc. unfold cachedToken, set; cbn [entries].
  destruct (capacity c) as [|n]; [lia|]. simpl. rewrite Z.eqb_refl. reflexivity.
Qed.

(** An insertion never changes the token of another key: that key either
    keeps its token or has been dropped. *)
Lemma cachedToken_set_other k k' v c :
  k' <> k ->
  cachedToken k' (set k v c) = cachedToken k' c \/ cachedToken k' (set k v c) = None.
Proof.
  intros Hne. unfold cachedToken, set; cbn [entries].
  destruct (peek_take k' (capacity c) (mkEntry k v (ticks c) :: del k (entries c)))
    as [H|H]; rewrite H; [left | right; reflexivity].
  simpl. destruct (k =? k') eqn:E.
  - apply Z.eqb_eq in E. congruence.
  - rewrite peek_del_other by assumption. reflexivity.
Qed.

(** Eviction at capacity: inserting a new key into a full store drops exactly
    the entry at the far end of the recency order, and that entry is the one
    with the smallest access time. *)
Lemma set_evicts_oldest k v c victim :
  wf c ->
  peek k (entries c) = None ->
  length (entries c) = capacity c ->
  oldest c = Some victim ->
  entries (set k v c) = mkEntry k v (ticks c) :: removelast (entries c)
  /\ Forall (fun e => (lastAccess victim <= lastAccess e)%nat) (entries c)
  /\ cachedToken (key victim) (set k v c) = None
  /\ cachedToken k (set k v c) = Some v
  /\ (forall k', k' <> k -> k' <> key victim ->
        cachedToken k' (set k v c) = cachedToken k' c).
Proof.
  intros [Hb Ho Ht] Hnew Hfull Hold. unfold oldest in Hold.
  apply last_Some in Hold. destruct Hold as [front Hes].
  assert (Hcap : capacity c = S (length front)).
  { rewrite <- Hfull, Hes, length_app. simpl. lia. }
  assert (Hentries : entries (set k v c) = mkEntry k v (ticks c) :: front).
  { unfold set; cbn [entries]. rewrite (del_absent _ _ Hnew), Hcap, Hes.
    simpl. rewrite take_app_length. reflexivity. }
  rewrite Hes in Ho. apply recent_first_snoc in Ho. destruct Ho as [Hfront Hall].
  assert (Hvk : key victim <> k).
  { intros Heq. apply peek_None in Hnew. apply Hnew.
    rewrite Hes, map_app. apply elem_of_app. right. simpl. rewrite Heq. left. }
  assert (Hvfront : peek (key victim) front = None).
  { apply peek_None. intros Hin. apply list_elem_of_fmap in Hin.
    destruct Hin as (x & Hk & Hx). rewrite Forall_forall in Hall.
    destruct (Hall x Hx). congruence. }
  split; [|split; [|split; [|split]]].
  - rewrite Hentries, Hes, removelast_last. reflexivity.
  - rewrite Hes. apply Forall_app. split.
    + eapply Forall_impl; [exact Hall|]. simpl. intros x [_ Hx]. lia.
    + apply Forall_singleton. lia.
  - unfold cachedToken. rewrite Hentries. simpl.
    destruct (k =? key victim) eqn:E; [apply Z.eqb_eq in E; congruence|].
    rewrite Hvfront. reflexivity.
  - unfold cachedToken. rewrite Hentries. simpl. rewrite Z.eqb_refl. reflexivity.
  - intros k' Hk Hv. unfold cachedToken. rewrite Hentries, Hes. simpl.
    destruct (k =? k') eqn:E; [apply Z.eqb_eq in E; congruence|].
    rewrite peek_app. destruct (peek k' front); [reflexivity|].
    simpl. destruct (key victim =? k') eqn:E'; [|reflexivity].
    apply Z.eqb_eq in E'. congruence.
Qed.

End LRU.

(** ** InstallationTokenCache *)

Module InstallationTokenCache.

Inductive Handle : Type :=
| Immediate (tok : AuthToken)
| Awaiting (p : nat).

Section Cache.

(** What a failed fetch is rejected with. *)
Context {Error : Type}.
Variable margin : Z.

(** Modelled from the spec: the installation token cache
    ([installation-token-cache.ts] is not under [src/]).  Per key the cache is
    in one of the states absent, pending (a shared pending operation) or
    present (a token):
      - [store] holds the present tokens, bounded and in recency order;
      - [pending] is the in-flight marker, installation id to the pending
        operation registered for it;
      - [settled] records how each pending operation completed;
      - [fetchLog] is a ghost log of the keys [fetchFn] was invoked for. *)
Record t : Type := mkCache {
  store : LRU.t;
  pending : gmap Z nat;
  settled : gmap nat (result Error AuthToken);
  nextPromise : nat;
  fetchLog : list Z
}.

Definition create (max : nat) : t :=
  {| store := LRU.create max; pending := ∅; settled := ∅;
     nextPromise := 0; fetchLog := [] |}.

(** The token cached for [id], when it is not about to expire at [now]. *)
Definition validToken (now id : Z) (s : LRU.t) : option AuthToken :=
  match LRU.cachedToken id s with
  | Some tok => if isAboutToExpire margin now tok then None else Some tok
  | None => None
  end.

(** Modelled from the spec: [getInstallationToken(installationId, fetchFn)],
    the part that runs synchronously, up to the first suspension point.
      - a valid cached token is returned at once, [fetchFn] is not invoked;
      - otherwise, with no fetch in flight for the key, [fetchFn] is invoked
        and the pending operation is registered in the same step;
      - otherwise the caller receives the pending operation in flight.
    The lookup counts as an access of the key in the recency order. *)
Definition getInstallationToken (now id : Z) (c : t) : Handle * t :=
  let looked := LRU.get id (store c) in
  let valid :=
    match looked.1 with
    | Some tok => if isAboutToExpire margin now tok then None else Some tok
    | None => None
    end in
  match valid with
  | Some tok =>
      (Immediate tok,
       {| store := looked.2; pending := pending c; settled := settled c;
          nextPromise := nextPromise c; fetchLog := fetchLog c |})
  | None =>
      match pending c !! id with
      | Some p =>
          (Awaiting p,
           {| store := looked.2; pending := pending c; settled := settled c;
              nextPromise := nextPromise c; fetchLog := fetchLog c |})
      | None =>
          let p := nextPromise c in
          (Awaiting p,
           {| store := looked.2; pending := <[id := p]> (pending c);
              settled := settled c; nextPromise := S p;
              fetchLog := (fetchLog c ++ [id])%list |})
      end
  end.

(** Modelled from the spec: completion of the fetch in flight for [id].  On
    success the token replaces the cache entry; on failure only the pending
    marker is cleared.  Either way the pending operation settles with [r]. *)
Definition settle (id : Z) (r : result Error AuthToken) (c : t) : t :=
  match pending c !! id with
  | Some p =>
      {| store := match r with
                  | Ok tok => LRU.set id tok (store c)
                  | Err _ => store c
                  end;
         pending := delete id (pending c);
         settled := <[p := r]> (settled c);
         nextPromise := nextPromise c;
         fetchLog := fetchLog c |}
  | None => c
  end.

(** What a caller holding [h] has observed so far. *)
Definition outcome (c : t) (h : Handle) : option (result Error AuthToken) :=
  match h with
  | Immediate tok => Some (Ok tok)
  | Awaiting p => settled c !! p
  end.

(** Cooperative scheduling: the cache is only touched by whole synchronous
    steps, a call up to its suspension or the completion of a fetch. *)
Inductive Event : Type :=
| Call (id now : Z)
| Settle (id : Z) (r : result Error AuthToken).

Definition step (ev : Event) (c : t) : list (Z * Handle) * t :=
  match ev with
  | Call id now =>
      let r := getInstallationToken now id c in ([(id, r.1)], r.2)
  | Settle id r => ([], settle id r c)
  end.

(** Runs the events in order; returns the handle each call received. *)
Fixpoint run (evs : list Event) (c : t) : list (Z * Handle) * t :=
  match evs with
  | [] => ([], c)
  | ev :: rest =>
      let r1 := step ev c in
      let r2 := run rest r1.2 in
      ((r1.1 ++ r2.1)%list, r2.2)
  end.

Fixpoint callers (id : Z) (evs : list Event) : nat :=
  match evs with
  | [] => 0
  | Call id' _ :: rest => if id' =? id then S (callers id rest) else callers id rest
  | Settle _ _ :: rest => callers id rest
  end.

Fixpoint fetches (id : Z) (log : list Z) : nat :=
  match log with
  | [] => 0
  | id' :: rest => if id' =? id then S (fetches id rest) else fetches id rest
  end.

Fixpoint handlesFor (id : Z) (hs : list (Z * Handle)) : list Handle :=
  match hs with
  | [] => []
  | (id', h) :: rest => if id' =? id then h :: handlesFor id rest else handlesFor id rest
  end.

(** The events that may interleave with a batch of concurrent callers of
    [id] that starts in state [c0]: calls for [id] made while [c0] holds no
    valid token for it, and anything that concerns another key. *)
Definition concurrent_on (id : Z) (c0 : t) (ev : Event) : Prop :=
  match ev with
  | Call id' now => id' = id -> validToken now id (store c0) = None
  | Settle id' _ => id' <> id
  end.

(** The token of [id] is the one [c0] had, or has been dropped since. *)
Definition not_refreshed (id : Z) (c0 c : t) : Prop :=
  LRU.cachedToken id (store c) = LRU.cachedToken id (store c0)
  \/ LRU.cachedToken id (store c) = None.

Lemma fetches_app id l1 l2 :
  fetches id (l1 ++ l2)%list = (fetches id l1 + fetches id l2)%nat.
Proof.
  induction l1 as [|x rest IH]; simpl; [reflexivity|].
  destruct (x =? id); simpl; rewrite IH; reflexivity.
Qed.

Lemma handlesFor_app id l1 l2 :
  handlesFor id (l1 ++ l2)%list = (handlesFor id l1 ++ handlesFor id l2)%list.
Proof.
  induction l1 as [|[x h] rest IH]; simpl; [reflexivity|].
  destruct (x =? id); simpl; rewrite IH; reflexivity.
Qed.

(** The three outcomes of a call, by the state it finds. *)
Lemma call_hit now id c tok :
  validToken now id (store c) = Some tok ->
  getInstallationToken now id c =
  (Immediate tok,
   {| store := (LRU.get id (store c)).2; pending := pending c;
      settled := settled c; nextPromise := nextPromise c;
      fetchLog := fetchLog c |}).
Proof.
  unfold getInstallationToken, validToken. cbv zeta.
  rewrite LRU.get_result. intros ->. reflexivity.
Qed.

Lemma call_join now id c p :
  validToken now id (store c) = None ->
  pending c !! id = Some p ->
  getInstallationToken now id c =
  (Awaiting p,
   {| store := (LRU.get id (store c)).2; pending := pending c;
      settled := settled c; nextPromise := nextPromise c;
      fetchLog := fetchLog c |}).
Proof.
  unfold getInstallationToken, validToken. cbv zeta.
  rewrite LRU.get_result. intros -> ->. reflexivity.
Qed.

Lemma call_start now id c :
  validToken now id (store c) = None ->
  pending c !! id = None ->
  getInstallationToken now id c =
  (Awaiting (nextPromise c),
   {| store := (LRU.get id (store c)).2;
      pending := <[id := nextPromise c]> (pending c);
      settled := settled c; nextPromise := S (nextPromise c);
      fetchLog := (fetchLog c ++ [id])%list |}).
Proof.
  unfold getInstallationToken, validToken. cbv zeta.
  rewrite LRU.get_result. intros -> ->. reflexivity.
Qed.

Lemma call_cases now id c :
  (exists tok, validToken now id (store c) = Some tok)
  \/ (validToken now id (store c) = None /\ exists p, pending c !! id = Some p)
  \/ (validToken now id (store c) = None /\ pending c !! id = None).
Proof.
  destruct (validToken now id (store c)) as [tok|]; [left; eauto|].
  destruct (pending c !! id) as [p|]; [right; left; eauto | right; right; auto].
Qed.

Lemma call_store now id c :
  store (getInstallationToken now id c).2 = (LRU.get id (store c)).2.
Proof.
  destruct (call_cases now id c) as [[tok H]|[[H [p Hp]]|[H Hp]]].
  - rewrite (call_hit _ _ _ _ H). reflexivity.
  - rewrite (call_join _ _ _ _ H Hp). reflexivity.
  - rewrite (call_start _ _ _ H Hp). reflexivity.
Qed.

Lemma stale_stays_stale now id c0 c :
  not_refreshed id c0 c ->
  validToken now id (store c0) = None -> validToken now id (store c) = None.
Proof.
  unfold not_refreshed, validToken. intros [-> | ->]; auto.
Qed.

(** Frame: a step that concerns another key leaves the in-flight marker, the
    fetch count and the token of [id] alone (the token may be evicted). *)
Lemma call_other_frame now id id' c0 c :
  id' <> id -> not_refreshed id c0 c ->
  let r := getInstallationToken now id' c in
  pending r.2 !! id = pending c !! id
  /\ fetches id (fetchLog r.2) = fetches id (fetchLog c)
  /\ not_refreshed id c0 r.2
  /\ handlesFor id [(id', r.1)] = [].
Proof.
  intros Hne HR. cbv zeta.
  assert (Hh : forall h, handlesFor id [(id', h)] = []).
  { intros h. simpl. destruct (id' =? id) eqn:E; [|reflexivity].
    apply Z.eqb_eq in E. contradiction. }
  assert (HR' : not_refreshed id c0 (getInstallationToken now id' c).2).
  { unfold not_refreshed in *. rewrite call_store, LRU.cachedToken_get. exact HR. }
  split; [|split; [|split]]; [| |exact HR'|apply Hh].
  - destruct (call_cases now id' c) as [[tok H]|[[H [p Hp]]|[H Hp]]].
    + rewrite (call_hit _ _ _ _ H). reflexivity.
    + rewrite (call_join _ _ _ _ H Hp). reflexivity.
    + rewrite (call_start _ _ _ H Hp). simpl.
      apply lookup_insert_ne. assumption.
  - destruct (call_cases now id' c) as [[tok H]|[[H [p Hp]]|[H Hp]]].
    + rewrite (call_hit _ _ _ _ H). reflexivity.
    + rewrite (call_join _ _ _ _ H Hp). reflexivity.
    + rewrite (call_start _ _ _ H Hp). simpl.
      rewrite fetches_app. simpl.
      destruct (id' =? id) eqn:E; [apply Z.eqb_eq in E; contradiction | lia].
Qed.

Lemma settle_other_frame id id' r c0 c :
  id' <> id -> not_refreshed id c0 c ->
  pending (settle id' r c) !! id = pending c !! id
  /\ fetchLog (settle id' r c) = fetchLog c
  /\ not_refreshed id c0 (settle id' r c).
Proof.
  intros Hne HR. unfold settle.
  destruct (pending c !! id') as [p|]; [|auto]. simpl.
  split; [apply lookup_delete_ne; assumption|]. split; [reflexivity|].
  unfold not_refreshed in *. simpl. destruct r as [tok|e]; [|exact HR].
  destruct (LRU.cachedToken_set_other id' id tok (store c)) as [H|H];
    [congruence | rewrite H; exact HR | right; exact H].
Qed.

(** Once a fetch is in flight for [id], every concurrent caller of [id]
    joins it: no further fetch starts and all receive the same operation. *)
Lemma joined_while_in_flight id c0 p evs : forall c,
  pending c !! id = Some p ->
  not_refreshed id c0 c ->
  Forall (concurrent_on id c0) evs ->
  pending (run evs c).2 !! id = Some p
  /\ fetches id (fetchLog (run evs c).2) = fetches id (fetchLog c)
  /\ handlesFor id (run evs c).1 = replicate (callers id evs) (Awaiting p)
  /\ not_refreshed id c0 (run evs c).2.
Proof.
  induction evs as [|ev rest IH]; intros c Hp HR Hall.
  - simpl. auto.
  - inversion Hall as [|? ? Hev Hrest]; subst. simpl.
    rewrite handlesFor_app. destruct ev as [id' now | id' r]; simpl in *.
    + destruct (Z.eq_dec id' id) as [->|Hne].
      * specialize (Hev eq_refl).
        pose proof (stale_stays_stale _ _ _ _ HR Hev) as Hstale.
        rewrite (call_join _ _ _ _ Hstale Hp). simpl. rewrite Z.eqb_refl.
        edestruct (IH {| store := (LRU.get id (store c)).2; pending := pending c;
                         settled := settled c; nextPromise := nextPromise c;
                         fetchLog := fetchLog c |}) as (H1 & H2 & H3 & H4);
          [exact Hp | | exact Hrest | ].
        { unfold not_refreshed in *. simpl. rewrite LRU.cachedToken_get. exact HR. }
        simpl in *. rewrite H3. auto.
      * destruct (call_other_frame now id id' c0 c Hne HR) as (F1 & F2 & F3 & F4).
        simpl in F4. rewrite F4. simpl.
        destruct (id' =? id) eqn:E; [apply Z.eqb_eq in E; contradiction|].
        destruct (IH (getInstallationToken now id' c).2) as (H1 & H2 & H3 & H4);
          [rewrite F1; exact Hp | exact F3 | exact Hrest |].
        rewrite H2, F2. auto.
    + destruct (settle_other_frame id id' r c0 c Hev HR) as (F1 & F2 & F3).
      destruct (IH (settle id' r c)) as (H1 & H2 & H3 & H4);
        [rewrite F1; exact Hp | exact F3 | exact Hrest |].
      rewrite H2, F2. auto.
Qed.

(** From a state with nothing in flight for [id]: the first concurrent
    caller starts the one fetch, the others join it. *)
Lemma one_fetch_per_batch id c0 evs : forall c,
  pending c !! id = None ->
  not_refreshed id c0 c ->
  Forall (concurrent_on id c0) evs ->
  (1 <= callers id evs)%nat ->
  exists p,
    pending (run evs c).2 !! id = Some p
    /\ fetches id (fetchLog (run evs c).2) = S (fetches id (fetchLog c))
    /\ handlesFor id (run evs c).1 = replicate (callers id evs) (Awaiting p)
    /\ not_refreshed id c0 (run evs c).2.
Proof.
  induction evs as [|ev rest IH]; intros c Hp HR Hall Hn.
  - simpl in Hn. lia.
  - inversion Hall as [|? ? Hev Hrest]; subst. simpl.
    rewrite handlesFor_app. destruct ev as [id' now | id' r]; simpl in *.
    + destruct (Z.eq_dec id' id) as [->|Hne].
      * specialize (Hev eq_refl).
        pose proof (stale_stays_stale _ _ _ _ HR Hev) as Hstale.
        rewrite (call_start _ _ _ Hstale Hp). simpl. rewrite Z.eqb_refl.
        exists (nextPromise c).
        edestruct (joined_while_in_flight id c0 (nextPromise c) rest
                     {| store := (LRU.get id (store c)).2;
                        pending := <[id := nextPromise c]> (pending c);
                        settled := settled c; nextPromise := S (nextPromise c);
                        fetchLog := (fetchLog c ++ [id])%list |})
          as (H1 & H2 & H3 & H4); [| | exact Hrest |].
        { simpl. apply lookup_insert_eq. }
        { unfold not_refreshed in *. simpl. rewrite LRU.cachedToken_get. exact HR. }
        simpl in *. rewrite H1, H2, H3, fetches_app. simpl. rewrite Z.eqb_refl.
        split; [reflexivity|]. split; [lia|]. split; [reflexivity | exact H4].
      * destruct (call_other_frame now id id' c0 c Hne HR) as (F1 & F2 & F3 & F4).
        simpl in F4. rewrite F4. simpl.
        destruct (id' =? id) eqn:E; [apply Z.eqb_eq in E; contradiction|].
        destruct (IH (getInstallationToken now id' c).2) as (p & H1 & H2 & H3 & H4);
          [rewrite F1; exact Hp | exact F3 | exact Hrest | exact Hn |].
        exists p. rewrite H2, F2. auto.
    + destruct (settle_other_frame id id' r c0 c Hev HR) as (F1 & F2 & F3).
      destruct (IH (settle id' r c)) as (p & H1 & H2 & H3 & H4);
        [rewrite F1; exact Hp | exact F3 | exact Hrest | exact Hn |].
      exists p. rewrite H2, F2. auto.
Qed.

Lemma settle_outcome id r c p :
  pending c !! id = Some p ->
  outcome (settle id r c) (Awaiting p) = Some r.
Proof.
  intros Hp. unfold settle. rewrite Hp. simpl. apply lookup_insert_eq.
Qed.

Lemma settle_clears id r c : pending (settle id r c) !! id = None.
Proof.
  unfold settle. destruct (pending c !! id) as [p|] eqn:Hp; [|exact Hp].
  simpl. apply lookup_delete_eq.
Qed.

Lemma settle_failure_store id e c : store (settle id (Err e) c) = store c.
Proof. unfold settle. destruct (pending c !! id); reflexivity. Qed.

Lemma not_refreshed_refl id c : not_refreshed id c c.
Proof. left. reflexivity. Qed.

(** Every state the cache can reach keeps its store well formed. *)
Lemma step_store ev c :
  LRU.wf (store c) ->
  LRU.wf (store (step ev c).2)
  /\ LRU.capacity (store (step ev c).2) = LRU.capacity (store c).
Proof.
  intros Hwf. destruct ev as [id now | id r]; simpl.
  - rewrite call_store. split; [apply LRU.get_wf; assumption | apply LRU.get_capacity].
  - unfold settle. destruct (pending c !! id); [|auto]. simpl.
    destruct r; [|auto]. split; [apply LRU.set_wf; assumption | reflexivity].
Qed.

Lemma run_store evs : forall c,
  LRU.wf (store c) ->
  LRU.wf (store (run evs c).2)
  /\ LRU.capacity (store (run evs c).2) = LRU.capacity (store c).
Proof.
  induction evs as [|ev rest IH]; intros c Hwf; simpl; [auto|].
  destruct (step_store ev c Hwf) as [H1 H2].
  destruct (IH _ H1) as [H3 H4]. split; [assumption | congruence].
Qed.

Lemma cachedToken_None_peek k s :
  LRU.cachedToken k s = None -> LRU.peek k (LRU.entries s) = None.
Proof.
  unfold LRU.cachedToken. destruct (LRU.peek k (LRU.entries s)); [discriminate | reflexivity].
Qed.

End Cache.

(** C1: N >= 1 concurrent callers of the same installation id, arriving while
    the cache holds no valid token and no fetch in flight for that id, and
    interleaved with any activity on other ids, cause exactly one invocation
    of [fetchFn]; all N receive the same pending operation [p], and when it
    settles all N observe the same result, token or failure. *)
Theorem concurrent_callers_share_one_fetch
    (Error : Type) (margin : Z) (c : t (Error := Error)) (id : Z)
    (evs : list Event) :
  pending c !! id = None ->
  Forall (concurrent_on margin id c) evs ->
  (1 <= callers id evs)%nat ->
  exists p,
    fetches id (fetchLog (run margin evs c).2) = S (fetches id (fetchLog c))
    /\ handlesFor id (run margin evs c).1
       = replicate (callers id evs) (Awaiting p)
    /\ forall r,
         Forall (fun h => outcome (settle id r (run margin evs c).2) h = Some r)
                (handlesFor id (run margin evs c).1).
Proof.
  intros Hp Hall Hn.
  destruct (one_fetch_per_batch margin id c evs c Hp (not_refreshed_refl id c) Hall Hn)
    as (p & H1 & H2 & H3 & _).
  exists p. split; [exact H2|]. split; [exact H3|].
  intros r. rewrite H3. apply Forall_replicate.
  apply settle_outcome. exact H1.
Qed.

(** C3: when the fetch shared by the concurrent callers of an id is rejected
    with [e], every one of them observes the rejection [e]; the failed fetch
    stores nothing (the store is the one before the completion and the id
    has no valid token); the in-flight marker is cleared, and the next call
    for the id invokes [fetchFn] again. *)
Theorem failed_fetch_rejects_waiters_and_is_retried
    (Error : Type) (margin : Z) (c : t (Error := Error)) (id : Z)
    (evs : list Event) (e : Error) :
  pending c !! id = None ->
  Forall (concurrent_on margin id c) evs ->
  (1 <= callers id evs)%nat ->
  let c1 := (run margin evs c).2 in
  let c2 := settle id (Err e) c1 in
  Forall (fun h => outcome c2 h = Some (Err e)) (handlesFor id (run margin evs c).1)
  /\ length (handlesFor id (run margin evs c).1) = callers id evs
  /\ store c2 = store c1
  /\ pending c2 !! id = None
  /\ forall now,
       validToken margin now id (store c) = None ->
       validToken margin now id (store c2) = None
       /\ fetches id (fetchLog (getInstallationToken margin now id c2).2)
          = S (fetches id (fetchLog c2))
       /\ (getInstallationToken margin now id c2).1 = Awaiting (nextPromise c2).
Proof.
  intros Hp Hall Hn c1 c2.
  destruct (one_fetch_per_batch margin id c evs c Hp (not_refreshed_refl id c) Hall Hn)
    as (p & H1 & H2 & H3 & H4).
  assert (Hstore : store c2 = store c1) by apply settle_failure_store.
  assert (Hclear : pending c2 !! id = None) by apply settle_clears.
  split; [|split; [|split; [|split]]].
  - rewrite H3. apply Forall_replicate. apply settle_outcome. exact H1.
  - rewrite H3. apply length_replicate.
  - exact Hstore.
  - exact Hclear.
  - intros now Hstale.
    assert (Hstale2 : validToken margin now id (store c2) = None).
    { rewrite Hstore. eapply stale_stays_stale; [exact H4 | exact Hstale]. }
    split; [exact Hstale2|].
    rewrite (call_start margin now id c2 Hstale2 Hclear). simpl.
    rewrite fetches_app. simpl. rewrite Z.eqb_refl. split; [lia | reflexivity].
Qed.

(** C7: in every state reached from a cache created with capacity [max] the
    store holds at most [max] tokens; and when the store is full, completing
    a fetch for a key that has no entry drops exactly the least recently
    accessed entry: its access time is minimal, its key is gone, the new key
    holds its token, every other key keeps its token, and the store is full
    again. *)
Theorem capacity_bound_and_lru_eviction
    (Error : Type) (margin : Z) (max : nat) (evs : list (Event (Error := Error))) :
  let c := (run margin evs (create max)).2 in
  (length (LRU.entries (store c)) <= max)%nat
  /\ forall id p tok victim,
       pending c !! id = Some p ->
       LRU.cachedToken id (store c) = None ->
       length (LRU.entries (store c)) = max ->
       LRU.oldest (store c) = Some victim ->
       let c' := settle id (Ok tok) c in
       Forall (fun e => (LRU.lastAccess victim <= LRU.lastAccess e)%nat)
              (LRU.entries (store c))
       /\ LRU.cachedToken (LRU.key victim) (store c') = None
       /\ LRU.cachedToken id (store c') = Some tok
       /\ (forall k, k <> id -> k <> LRU.key victim ->
             LRU.cachedToken k (store c') = LRU.cachedToken k (store c))
       /\ length (LRU.entries (store c')) = max.
Proof.
  intros c.
  destruct (run_store margin evs (create max) (LRU.create_wf max)) as [Hwf Hcap].
  fold c in Hwf, Hcap. simpl in Hcap.
  split; [rewrite <- Hcap; apply (LRU.wf_bound _ Hwf)|].
  intros id p tok victim Hp Hnone Hfull Hold c'.
  apply cachedToken_None_peek in Hnone.
  rewrite <- Hcap in Hfull.
  destruct (LRU.set_evicts_oldest id tok (store c) victim Hwf Hnone Hfull Hold)
    as (He & Hmin & Hv & Hid & Hothers).
  assert (Hs : store c' = LRU.set id tok (store c)).
  { unfold c', settle. rewrite Hp. reflexivity. }
  rewrite Hs. split; [exact Hmin|]. split; [exact Hv|]. split; [exact Hid|].
  split; [exact Hothers|].
  rewrite He. simpl. unfold LRU.oldest in Hold.
  apply last_Some in Hold. destruct Hold as [front Hes].
  rewrite Hes, removelast_last. rewrite <- Hcap, <- Hfull, Hes, length_app. simpl. lia.
Qed.

(** Concrete runs.  Three callers of installation 42 arrive on a cold cache
    while installation 7 is served in between. *)
Definition demoBatch : list (Event (Error := string)) :=
  [Call 42 0; Call 7 0; Call 42 0; Settle 7 (Err "boom"); Call 42 5].

Lemma concurrent_callers_share_one_fetch_witness :
  exists p,
    fetches 42 (fetchLog (run ONE_MINUTE demoBatch (create 1000)).2)
    = S (fetches 42 (fetchLog (create (Error := string) 1000)))
    /\ handlesFor 42 (run ONE_MINUTE demoBatch (create 1000)).1
       = replicate (callers 42 demoBatch) (Awaiting p)
    /\ forall r,
         Forall (fun h => outcome (settle 42 r (run ONE_MINUTE demoBatch (create 1000)).2) h
                          = Some r)
                (handlesFor 42 (run ONE_MINUTE demoBatch (create 1000)).1).
Proof.
  apply (concurrent_callers_share_one_fetch string ONE_MINUTE (create 1000) 42 demoBatch).
  - reflexivity.
  - repeat constructor; simpl; intros; try reflexivity; congruence.
  - simpl. lia.
Defined.

Lemma failed_fetch_rejects_waiters_and_is_retried_witness :
  let c1 := (run ONE_MINUTE demoBatch (create 1000)).2 in
  let c2 := settle 42 (Err "denied") c1 in
  Forall (fun h => outcome c2 h = Some (Err "denied"))
         (handlesFor 42 (run ONE_MINUTE demoBatch (create 1000)).1)
  /\ length (handlesFor 42 (run ONE_MINUTE demoBatch (create 1000)).1)
     = callers 42 demoBatch
  /\ store c2 = store c1
  /\ pending c2 !! 42 = None
  /\ forall now,
       validToken ONE_MINUTE now 42 (store (create (Error := string) 1000)) = None ->
       validToken ONE_MINUTE now 42 (store c2) = None
       /\ fetches 42 (fetchLog (getInstallationToken ONE_MINUTE now 42 c2).2)
          = S (fetches 42 (fetchLog c2))
       /\ (getInstallationToken ONE_MINUTE now 42 c2).1 = Awaiting (nextPromise c2).
Proof.
  apply (failed_fetch_rejects_waiters_and_is_retried
           string ONE_MINUTE (create 1000) 42 demoBatch "denied").
  - reflexivity.
  - repeat constructor; simpl; intros; try reflexivity; congruence.
  - simpl. lia.
Defined.

(** The example scenario of the specification: two calls for installation 42
    in immediate succession, a fetch resolving to the token "abc". *)
Example two_calls_one_fetch :
  let abc := mkAuthToken "abc" 3600000 in
  let r := run (Error := string) ONE_MINUTE [Call 42 0; Call 42 0] (create 1000) in
  let done := settle 42 (Ok abc) r.2 in
  fetchLog r.2 = [42]
  /\ map (outcome done) (handlesFor 42 r.1) = [Some (Ok abc); Some (Ok abc)]
  /\ (getInstallationToken ONE_MINUTE 1000 42 done).1 = Immediate abc.
Proof. vm_compute. auto. Qed.

(** A store of capacity two holding keys 1 and 2, key 1 looked up last, with
    a fetch for key 3 in flight. *)
Definition demoFill : list (Event (Error := string)) :=
  [Call 1 0; Settle 1 (Ok (mkAuthToken "one" 3600000));
   Call 2 0; Settle 2 (Ok (mkAuthToken "two" 3600000));
   Call 1 10; Call 3 10].

Lemma capacity_bound_and_lru_eviction_witness :
  let c := (run ONE_MINUTE demoFill (create 2)).2 in
  let victim := LRU.mkEntry 2 (mkAuthToken "two" 3600000) 1 in
  let c' := settle 3 (Ok (mkAuthToken "three" 3600000)) c in
  Forall (fun e => (LRU.lastAccess victim <= LRU.lastAccess e)%nat)
         (LRU.entries (store c))
  /\ LRU.cachedToken 2 (store c') = None
  /\ LRU.cachedToken 3 (store c') = Some (mkAuthToken "three" 3600000)
  /\ (forall k, k <> 3 -> k <> 2 ->
        LRU.cachedToken k (store c') = LRU.cachedToken k (store c))
  /\ length (LRU.entries (store c')) = 2%nat.
Proof.
  apply (proj2 (capacity_bound_and_lru_eviction string ONE_MINUTE 2 demoFill)
           3 2%nat (mkAuthToken "three" 3600000)
           (LRU.mkEntry 2 (mkAuthToken "two" 3600000) 1)).
  - reflexivity.
  - reflexivity.
  - reflexivity.
  - reflexivity.
Defined.

Example demoFill_keeps_the_key_looked_up_last :
  LRU.keys (store (settle 3 (Ok (mkAuthToken "three" 3600000))
                     (run ONE_MINUTE demoFill (create 2)).2)) = [3; 1].
Proof. reflexivity. Qed.

End InstallationTokenCache.

(** ** JavaScript string primitives *)

Module JsString.

(** [s.startsWith(p)] *)
Fixpoint startsWith (p s : string) : bool :=
  match p, s with
  | EmptyString, _ => true
  | String a p', String b s' => if Ascii.eqb a b then startsWith p' s' else false
  | String _ _, EmptyString => false
  end.

(** [s.includes(sub)] *)
Fixpoint includes (sub s : string) : bool :=
  if startsWith sub s then true
  else match s with
       | EmptyString => false
       | String _ s' => includes sub s'
       end.

Definition quote : string := String "034"%char EmptyString.

Lemma append_cons a s1 s2 : String a s1 ++ s2 = String a (s1 ++ s2).
Proof. reflexivity. Qed.

Lemma append_empty s : "" ++ s = s.
Proof. reflexivity. Qed.

Lemma append_nil_r s : s ++ "" = s.
Proof.
  induction s as [|a s IH]; [reflexivity|]. rewrite append_cons, IH. reflexivity.
Qed.

Lemma append_assoc s1 s2 s3 : (s1 ++ s2) ++ s3 = s1 ++ s2 ++ s3.
Proof.
  induction s1 as [|a s1 IH]; [reflexivity|]. rewrite !append_cons, IH. reflexivity.
Qed.

Lemma length_append s1 s2 :
  String.length (s1 ++ s2) = (String.length s1 + String.length s2)%nat.
Proof.
  induction s1 as [|a s1 IH]; [reflexivity|]. rewrite append_cons. simpl.
  rewrite IH. reflexivity.
Qed.

Lemma startsWith_spec p s :
  startsWith p s = true <-> exists rest, s = p ++ rest.
Proof.
  revert s. induction p as [|a p IH]; intros s; simpl.
  - split; [intros _; exists s; reflexivity | reflexivity].
  - destruct s as [|b s].
    + split; [discriminate | intros [rest H]; discriminate].
    + destruct (Ascii.eqb a b) eqn:E.
      * apply Ascii.eqb_eq in E. subst b. rewrite IH.
        split; intros [rest H]; exists rest.
        -- rewrite H. reflexivity.
        -- rewrite append_cons in H. congruence.
      * apply Ascii.eqb_neq in E.
        split; [discriminate|]. intros [rest H].
        rewrite append_cons in H. congruence.
Qed.

Lemma includes_here sub s : startsWith sub s = true -> includes sub s = true.
Proof. intros H. destruct s; simpl in *; rewrite H; reflexivity. Qed.

Lemma includes_spec sub s :
  includes sub s = true <-> exists before after, s = before ++ sub ++ after.
Proof.
  split.
  - induction s as [|b s IH]; simpl.
    + destruct (startsWith sub "") eqn:E; [|discriminate].
      apply startsWith_spec in E. destruct E as [rest E].
      intros _. exists "", rest. exact E.
    + destruct (startsWith sub (String b s)) eqn:E.
      * apply startsWith_spec in E. destruct E as [rest E].
        intros _. exists "", rest. exact E.
      * intros H. destruct (IH H) as (before & after & Hs).
        exists (String b before), after. rewrite append_cons, <- Hs. reflexivity.
  - intros (before & after & H). revert s H.
    induction before as [|c before IH]; intros s H.
    + rewrite append_empty in H. apply includes_here.
      apply startsWith_spec. eauto.
    + rewrite append_cons in H. subst s. simpl.
      destruct (startsWith sub _); [reflexivity|]. apply IH. reflexivity.
Qed.

End JsString.

(** ** The GitHub app client ([github-app-client.ts]) *)

Module Client.

(** *** Requests and responses *)

(** A scalar request parameter ([string | number | undefined]). *)
Inductive Value : Type :=
| VUndefined
| VNum (n : Z)
| VStr (s : string).

Definition Params : Type := list (string * Value).

Inductive Method : Type := GET | POST | PATCH.

Record RequestHeaders : Type := mkHeaders {
  Accept : string;
  Authorization : string
}.

Inductive Body : Type :=
| NoBody
| EmptyObject
| GraphQLQuery (query : string) (variables : Params)
| Fields (fields : Params).

(** One outbound call of the axios instance: the url is the template as
    written in the source, completed by [urlParams] in an interceptor. *)
Record Request : Type := mkRequest {
  method : Method;
  url : string;
  body : Body;
  headers : RequestHeaders;
  params : Params;
  urlParams : Params
}.

Record Response (T : Type) : Type := mkResponse {
  status : Z;
  responseHeaders : gmap string string;
  data : T
}.
Arguments mkResponse {T} status responseHeaders data.
Arguments status {T} r.
Arguments responseHeaders {T} r.
Arguments data {T} r.

Record GraphQLError : Type := mkGraphQLError {
  message : string;
  type : string
}.

Record GraphQlQueryResponse (T : Type) : Type := mkGraphQl {
  payload : T;
  errors : option (list GraphQLError)
}.
Arguments mkGraphQl {T} payload errors.
Arguments payload {T} g.
Arguments errors {T} g.

(** [Octokit.AppsCreateInstallationTokenResponse], the fields that are read. *)
Record TokenResponse : Type := mkTokenResponse {
  token_string : string;
  expires_at : string
}.

Record InstallationId : Type := mkInstallationId {
  githubBaseUrl : string;
  appId : Z;
  installationId : Z
}.

Record PaginatedAxiosResponse (T : Type) : Type := mkPaginated {
  page_response : Response T;
  hasNextPage : bool
}.
Arguments mkPaginated {T} page_response hasNextPage.
Arguments page_response {T} p.
Arguments hasNextPage {T} p.

Section Client.

(** The JSON payload of REST and GraphQL answers is not inspected here. *)
Variable Json : Type.

(** What a call of the client is rejected with. *)
Inductive ClientError : Type :=
| Rejection (reason : string)
| SigningFailure
| RateLimitingError (response : Response (GraphQlQueryResponse Json))
| GithubClientGraphQLError (message : string) (errors : list GraphQLError).

(** The collaborators of the client that are not part of this file of the
    repository: the primitives of the token holder, the [Date] constructor,
    the constants and the predicate of [github-queries] and
    [github-client-errors], and the network behind the axios instance.  The
    network answers the [n]-th request of a run; a rejection stands for
    whatever the interceptor pipeline rejects with. *)
Record Env : Type := mkEnv {
  sign : string -> AppTokenHolder.Claims -> option string;
  horizon : Z;
  margin : Z;
  parseDate : string -> Z;
  isChangedFilesError : ClientError -> bool;
  getBranchesQueryWithChangedFiles : string;
  getBranchesQueryWithoutChangedFiles : string;
  getCommitsQueryWithChangedFiles : string;
  getCommitsQueryWithoutChangedFiles : string;
  tokenEndpoint : nat -> Request -> result ClientError (Response TokenResponse);
  graphqlEndpoint :
    nat -> Request -> result ClientError (Response (GraphQlQueryResponse Json));
  restEndpoint : nat -> Request -> result ClientError (Response Json)
}.

Variable env : Env.

(** The state one logical flow of the client runs in.  [requests] (oldest
    first), [warnings] and [graphqlCalls] are traces of what the flow did. *)
Record World : Type := mkWorld {
  now : Z;
  holder : AppTokenHolder.t;
  tokens : LRU.t;
  requests : list Request;
  warnings : list string;
  graphqlCalls : list (string * Params)
}.

Definition M (A : Type) : Type := World -> result ClientError A * World.

Definition ret {A : Type} (a : A) : M A := fun w => (Ok a, w).

Definition reject {A : Type} (e : ClientError) : M A := fun w => (Err e, w).

Definition bind {A B : Type} (m : M A) (k : A -> M B) : M B :=
  fun w =>
    match m w with
    | (Ok a, w1) => k a w1
    | (Err e, w1) => (Err e, w1)
    end.

(** [promise.catch(handler)] *)
Definition catch {A : Type} (m : M A) (handler : ClientError -> M A) : M A :=
  fun w =>
    match m w with
    | (Ok a, w1) => (Ok a, w1)
    | (Err e, w1) => handler e w1
    end.

Notation "'let*' x ':=' m 'in' k" := (bind m (fun x => k))
  (at level 10, x name, m at level 100, k at level 200).

(** Sends a request: it is appended to the trace and answered by the
    network. *)
Definition send {T : Type}
    (endpoint : nat -> Request -> result ClientError (Response T))
    (req : Request) : M (Response T) :=
  fun w =>
    (endpoint (length (requests w)) req,
     {| now := now w; holder := holder w; tokens := tokens w;
        requests := (requests w ++ [req])%list; warnings := warnings w;
        graphqlCalls := graphqlCalls w |}).

(** [this.logger.warn(msg)] *)
Definition warn (msg : string) : M unit :=
  fun w =>
    (Ok tt,
     {| now := now w; holder := holder w; tokens := tokens w;
        requests := requests w; warnings := (warnings w ++ [msg])%list;
        graphqlCalls := graphqlCalls w |}).

Definition withTokens (s : LRU.t) (w : World) : World :=
  {| now := now w; holder := holder w; tokens := s;
     requests := requests w; warnings := warnings w;
     graphqlCalls := graphqlCalls w |}.

(** Modelled from the spec: [this.appTokenHolder.getAppToken(appId)], the
    holder of the app identity the client was constructed for, see
    [AppTokenHolder.getAppToken]. *)
Definition getAppToken (_ : InstallationId) : M AuthToken :=
  fun w =>
    let r := AppTokenHolder.getAppToken (sign env) (horizon env) (margin env)
               (now w) (holder w) in
    (match r.1 with
     | Ok tok => Ok tok
     | Err AppTokenHolder.SigningFailure => Err SigningFailure
     end,
     {| now := now w; holder := r.2; tokens := tokens w;
        requests := requests w; warnings := warnings w;
        graphqlCalls := graphqlCalls w |}).

(** Modelled from the spec: the awaited call
    [this.installationTokenCache.getInstallationToken(id, fetchFn)] as one
    flow experiences it when no other flow has a fetch in flight for [id]
    (the cache itself is [InstallationTokenCache], see [sequential_view]):
    it returns the valid cached token, or runs [fetchFn] and, when that
    resolves, stores and returns its token. *)
Definition getInstallationToken (id : Z) (fetchFn : M AuthToken) : M AuthToken :=
  fun w =>
    let looked := LRU.get id (tokens w) in
    let valid :=
      match looked.1 with
      | Some tok => if isAboutToExpire (margin env) (now w) tok then None else Some tok
      | None => None
      end in
    match valid with
    | Some tok => (Ok tok, withTokens looked.2 w)
    | None =>
        match fetchFn (withTokens looked.2 w) with
        | (Ok tok, w1) => (Ok tok, withTokens (LRU.set id tok (tokens w1)) w1)
        | (Err e, w1) => (Err e, w1)
        end
    end.

(** *** The client *)

(** The installation the client was constructed for. *)
Variable githubInstallationId : InstallationId.

Definition ACCEPT : string := "application/vnd.github.v3+json".

Definition appAuthenticationHeaders : M RequestHeaders :=
  let* appToken := getAppToken githubInstallationId in
  ret {| Accept := ACCEPT; Authorization := "Bearer " ++ token appToken |}.

Definition TOKEN_URL : string :=
  "/app/installations/{githubInstallationId}/access_tokens".

Definition createInstallationToken (id : Z) : M AuthToken :=
  let* auth := appAuthenticationHeaders in
  let* response := send (tokenEndpoint env)
                {| method := POST; url := TOKEN_URL; body := EmptyObject;
                   headers := auth; params := [];
                   urlParams := [("githubInstallationId", VNum id)] |} in
  let tokenResponse := data response in
  ret (mkAuthToken (token_string tokenResponse)
                   (parseDate env (expires_at tokenResponse))).

Definition installationAuthenticationHeaders : M RequestHeaders :=
  let* installationToken := getInstallationToken (installationId githubInstallationId)
      (createInstallationToken (installationId githubInstallationId)) in
  ret {| Accept := ACCEPT;
         Authorization := "Bearer " ++ token installationToken |}.

Definition get (u : string) (ps us : Params) : M (Response Json) :=
  let* auth := installationAuthenticationHeaders in
  send (restEndpoint env)
    {| method := GET; url := u; body := NoBody; headers := auth;
       params := ps; urlParams := us |}.

Definition patch (u : string) (b ps us : Params) : M (Response Json) :=
  let* auth := installationAuthenticationHeaders in
  send (restEndpoint env)
    {| method := PATCH; url := u; body := Fields b; headers := auth;
       params := ps; urlParams := us |}.

Definition isRateLimited (err : GraphQLError) : bool :=
  String.eqb (type err) "RATE_LIMITED".

(** The template literal [` and ${n} more errors`]. *)
Definition moreErrors (n : nat) : string :=
  " and " ++ NilZero.string_of_uint (Nat.to_uint n) ++ " more errors".

(** Lines 135-145 of [graphql]: the verdict on a GraphQL answer. *)
Definition graphqlVerdict (response : Response (GraphQlQueryResponse Json))
  : result ClientError (Response (GraphQlQueryResponse Json)) :=
  match errors (data response) with
  | Some (first :: others) =>
      let graphqlErrors := first :: others in
      if existsb isRateLimited graphqlErrors
      then Err (RateLimitingError response)
      else
        let graphQlErrorMessage :=
          message first ++
          (if (1 <? length graphqlErrors)%nat
           then moreErrors (length graphqlErrors - 1)
           else "") in
        Err (GithubClientGraphQLError graphQlErrorMessage graphqlErrors)
  | _ => Ok response
  end.

(** Records the invocation in the ghost trace [graphqlCalls]. *)
Definition enterGraphql (q : string) (vs : Params) : M unit :=
  fun w =>
    (Ok tt,
     {| now := now w; holder := holder w; tokens := tokens w;
        requests := requests w; warnings := warnings w;
        graphqlCalls := (graphqlCalls w ++ [(q, vs)])%list |}).

Definition graphql (q : string) (vs : Params)
  : M (Response (GraphQlQueryResponse Json)) :=
  let* _ := enterGraphql q vs in
  let* auth := installationAuthenticationHeaders in
  let* response := send (graphqlEndpoint env)
                {| method := POST; url := "/graphql";
                   body := GraphQLQuery q vs; headers := auth;
                   params := []; urlParams := [] |} in
  match graphqlVerdict response with
  | Ok r => ret r
  | Err e => reject e
  end.

(** The marker [rel="next"] of the link header. *)
Definition REL_NEXT : string :=
  "rel=" ++ JsString.quote ++ "next" ++ JsString.quote.

(** Line 232: [!!response?.headers.link?.includes("rel=\"next\"")]. *)
Definition nextPageAvailable {T : Type} (response : Response T) : bool :=
  match responseHeaders response !! "link" with
  | Some link => JsString.includes REL_NEXT link
  | None => false
  end.

Definition getRepositoriesPage (page : Z) : M (PaginatedAxiosResponse Json) :=
  let* response :=
    get "/installation/repositories?per_page={perPage}&page={page}" []
      [("perPage", VNum 100); ("page", VNum page)] in
  let hasNextPage := nextPageAvailable response in
  ret {| page_response := response; hasNextPage := hasNextPage |}.

Definition getInstallation (id : Z) : M (Response Json) :=
  let* auth := appAuthenticationHeaders in
  send (restEndpoint env)
    {| method := GET; url := "/app/installations/{installationId}";
       body := NoBody; headers := auth; params := [];
       urlParams := [("installationId", VNum id)] |}.

Definition optional {A : Type} (f : A -> Value) (o : option A) : Value :=
  match o with
  | Some a => f a
  | None => VUndefined
  end.

Definition getBranchesPage (owner repoName : string) (perPage : Z)
    (cursor : option string) : M Json :=
  let variables :=
    [("owner", VStr owner); ("repo", VStr repoName);
     ("per_page", VNum perPage); ("cursor", optional VStr cursor)] in
  let* response :=
    catch (graphql (getBranchesQueryWithChangedFiles env) variables)
      (fun err =>
         if negb (isChangedFilesError env err) then reject err
         else
           let* _ := warn "retrying branch graphql query without changedFiles" in
           graphql (getBranchesQueryWithoutChangedFiles env) variables) in
  ret (payload (data response)).

Definition getCommitsPage (owner repoName : string) (perPage : option Z)
    (cursor : Value) : M Json :=
  let variables :=
    [("owner", VStr owner); ("repo", VStr repoName);
     ("per_page", optional VNum perPage); ("cursor", cursor)] in
  let* response :=
    catch (graphql (getCommitsQueryWithChangedFiles env) variables)
      (fun err =>
         if negb (isChangedFilesError env err) then reject err
         else
           let* _ := warn "retrying commit graphql query without changedFiles" in
           graphql (getCommitsQueryWithoutChangedFiles env) variables) in
  ret (payload (data response)).

(** *** Reading the client's runs *)

Definition bearer (tok : AuthToken) : RequestHeaders :=
  {| Accept := "application/vnd.github.v3+json";
     Authorization := "Bearer " ++ token tok |}.

Definition tokenRequest (auth : RequestHeaders) (id : Z) : Request :=
  {| method := POST;
     url := "/app/installations/{githubInstallationId}/access_tokens";
     body := EmptyObject; headers := auth;
     params := []; urlParams := [("githubInstallationId", VNum id)] |}.

Definition graphqlRequest (q : string) (vs : Params) (auth : RequestHeaders)
  : Request :=
  {| method := POST; url := "/graphql"; body := GraphQLQuery q vs;
     headers := auth; params := []; urlParams := [] |}.

Definition installationRequest (auth : RequestHeaders) (id : Z) : Request :=
  {| method := GET; url := "/app/installations/{installationId}";
     body := NoBody; headers := auth; params := [];
     urlParams := [("installationId", VNum id)] |}.

Definition withHolder (h : AppTokenHolder.t) (w : World) : World :=
  {| now := now w; holder := h; tokens := tokens w;
     requests := requests w; warnings := warnings w;
     graphqlCalls := graphqlCalls w |}.

Definition sent (req : Request) (w : World) : World :=
  {| now := now w; holder := holder w; tokens := tokens w;
     requests := (requests w ++ [req])%list; warnings := warnings w;
     graphqlCalls := graphqlCalls w |}.

Definition entered (q : string) (vs : Params) (w : World) : World :=
  {| now := now w; holder := holder w; tokens := tokens w;
     requests := requests w; warnings := warnings w;
     graphqlCalls := (graphqlCalls w ++ [(q, vs)])%list |}.

Definition warned (msg : string) (w : World) : World :=
  {| now := now w; holder := holder w; tokens := tokens w;
     requests := requests w; warnings := (warnings w ++ [msg])%list;
     graphqlCalls := graphqlCalls w |}.

(** What the holder answers in world [w]. *)
Definition appTokenAt (w : World) : result AppTokenHolder.Failure AuthToken * AppTokenHolder.t :=
  AppTokenHolder.getAppToken (sign env) (horizon env) (margin env) (now w) (holder w).

Lemma appAuthenticationHeaders_run w :
  appAuthenticationHeaders w =
  (match (appTokenAt w).1 with
   | Ok tok => Ok (bearer tok)
   | Err _ => Err SigningFailure
   end, withHolder (appTokenAt w).2 w).
Proof.
  unfold appAuthenticationHeaders, bind, getAppToken, appTokenAt, ret.
  destruct (AppTokenHolder.getAppToken _ _ _ _ _) as [[tok|[]] h]; reflexivity.
Qed.

Lemma createInstallationToken_run id w :
  createInstallationToken id w =
  match (appTokenAt w).1 with
  | Ok appTok =>
      let req := tokenRequest (bearer appTok) id in
      (match tokenEndpoint env (length (requests w)) req with
       | Ok response =>
           Ok (mkAuthToken (token_string (data response))
                           (parseDate env (expires_at (data response))))
       | Err e => Err e
       end, sent req (withHolder (appTokenAt w).2 w))
  | Err _ => (Err SigningFailure, withHolder (appTokenAt w).2 w)
  end.
Proof.
  unfold createInstallationToken, bind. rewrite appAuthenticationHeaders_run.
  destruct ((appTokenAt w).1) as [appTok|e]; [|reflexivity].
  cbv zeta. unfold send, ret, sent, tokenRequest. simpl.
  destruct (tokenEndpoint env _ _); reflexivity.
Qed.

Lemma installationAuthenticationHeaders_hit w tok :
  InstallationTokenCache.validToken (margin env) (now w)
    (installationId githubInstallationId) (tokens w) = Some tok ->
  installationAuthenticationHeaders w =
  (Ok (bearer tok),
   withTokens (LRU.get (installationId githubInstallationId) (tokens w)).2 w).
Proof.
  unfold InstallationTokenCache.validToken, installationAuthenticationHeaders,
    bind, getInstallationToken.
  cbv zeta. rewrite LRU.get_result. intros ->. reflexivity.
Qed.

Lemma installationAuthenticationHeaders_miss w :
  InstallationTokenCache.validToken (margin env) (now w)
    (installationId githubInstallationId) (tokens w) = None ->
  installationAuthenticationHeaders w =
  let id := installationId githubInstallationId in
  match createInstallationToken id (withTokens (LRU.get id (tokens w)).2 w) with
  | (Ok tok, w1) => (Ok (bearer tok), withTokens (LRU.set id tok (tokens w1)) w1)
  | (Err e, w1) => (Err e, w1)
  end.
Proof.
  unfold InstallationTokenCache.validToken, installationAuthenticationHeaders,
    bind, getInstallationToken.
  cbv zeta. rewrite LRU.get_result. intros ->.
  destruct (createInstallationToken _ _) as [[tok|e] w1]; reflexivity.
Qed.

(** The ghost trace of [graphql] invocations is neither read nor written by
    the authentication path. *)
Lemma installationAuthenticationHeaders_entered q vs w :
  installationAuthenticationHeaders (entered q vs w) =
  ((installationAuthenticationHeaders w).1,
   entered q vs (installationAuthenticationHeaders w).2).
Proof.
  destruct (InstallationTokenCache.validToken (margin env) (now w)
              (installationId githubInstallationId) (tokens w)) as [tok|] eqn:Hv.
  - rewrite (installationAuthenticationHeaders_hit w tok Hv).
    rewrite (installationAuthenticationHeaders_hit (entered q vs w) tok Hv).
    reflexivity.
  - rewrite (installationAuthenticationHeaders_miss w Hv).
    rewrite (installationAuthenticationHeaders_miss (entered q vs w) Hv).
    cbv zeta. rewrite !createInstallationToken_run.
    change (appTokenAt (withTokens _ (entered q vs w))) with (appTokenAt w).
    change (appTokenAt (withTokens _ w)) with (appTokenAt w).
    destruct ((appTokenAt w).1) as [appTok|e]; [|reflexivity].
    cbv zeta. simpl.
    destruct (tokenEndpoint env _ _); reflexivity.
Qed.

Lemma graphql_run q vs w :
  graphql q vs w =
  match installationAuthenticationHeaders w with
  | (Ok auth, w1) =>
      let req := graphqlRequest q vs auth in
      (match graphqlEndpoint env (length (requests w1)) req with
       | Ok response => graphqlVerdict response
       | Err e => Err e
       end, entered q vs (sent req w1))
  | (Err e, w1) => (Err e, entered q vs w1)
  end.
Proof.
  unfold graphql, bind. unfold enterGraphql at 1.
  change {| now := now w; holder := holder w; tokens := tokens w;
            requests := requests w; warnings := warnings w;
            graphqlCalls := (graphqlCalls w ++ [(q, vs)])%list |}
    with (entered q vs w).
  rewrite installationAuthenticationHeaders_entered.
  destruct (installationAuthenticationHeaders w) as [[auth|e] w1]; [|reflexivity].
  cbv zeta. unfold send, graphqlRequest. simpl.
  destruct (graphqlEndpoint env _ _) as [response|e]; [|reflexivity].
  destruct (graphqlVerdict response); reflexivity.
Qed.

Lemma graphql_calls q vs w :
  graphqlCalls (graphql q vs w).2 = (graphqlCalls w ++ [(q, vs)])%list.
Proof.
  rewrite graphql_run.
  assert (H : graphqlCalls (installationAuthenticationHeaders w).2 = graphqlCalls w).
  { destruct (InstallationTokenCache.validToken (margin env) (now w)
                (installationId githubInstallationId) (tokens w)) as [tok|] eqn:Hv.
    - rewrite (installationAuthenticationHeaders_hit w tok Hv). reflexivity.
    - rewrite (installationAuthenticationHeaders_miss w Hv). cbv zeta.
      rewrite createInstallationToken_run.
      destruct ((appTokenAt _).1); [|reflexivity]. cbv zeta.
      destruct (tokenEndpoint env _ _); reflexivity. }
  destruct (installationAuthenticationHeaders w) as [[auth|e] w1]; simpl in *;
    rewrite H; reflexivity.
Qed.

(** The awaited call of one flow is the cache's call followed at once by
    the completion of the fetch it started. *)
Lemma sequential_view (c : InstallationTokenCache.t (Error := ClientError))
    (id : Z) (fetchFn : M AuthToken) (w : World) :
  InstallationTokenCache.store c = tokens w ->
  InstallationTokenCache.pending c !! id = None ->
  (forall w0, tokens (fetchFn w0).2 = tokens w0) ->
  let called := InstallationTokenCache.getInstallationToken (margin env) (now w) id c in
  let awaited := getInstallationToken id fetchFn w in
  match called.1 with
  | InstallationTokenCache.Immediate tok =>
      awaited.1 = Ok tok
      /\ tokens awaited.2 = InstallationTokenCache.store called.2
  | InstallationTokenCache.Awaiting p =>
      let fetched := fetchFn (withTokens (InstallationTokenCache.store called.2) w) in
      awaited.1 = fetched.1
      /\ tokens awaited.2
         = InstallationTokenCache.store
             (InstallationTokenCache.settle id fetched.1 called.2)
  end.
Proof.
  intros Hstore Hpending Hframe. cbv zeta.
  destruct (InstallationTokenCache.validToken (margin env) (now w) id
              (InstallationTokenCache.store c)) as [tok|] eqn:Hv.
  - rewrite (InstallationTokenCache.call_hit _ _ _ _ _ Hv). simpl.
    unfold InstallationTokenCache.validToken in Hv. rewrite Hstore in *.
    unfold getInstallationToken. cbv zeta. rewrite LRU.get_result, Hv.
    split; reflexivity.
  - rewrite (InstallationTokenCache.call_start _ _ _ _ Hv Hpending). simpl.
    unfold InstallationTokenCache.validToken in Hv. rewrite Hstore in *.
    unfold getInstallationToken. cbv zeta. rewrite LRU.get_result, Hv.
    unfold InstallationTokenCache.settle. simpl. rewrite lookup_insert_eq. simpl.
    pose proof (Hframe (withTokens (LRU.get id (tokens w)).2 w)) as Hf.
    destruct (fetchFn (withTokens (LRU.get id (tokens w)).2 w)) as [[tok|e] w1];
      simpl in *; rewrite Hf; split; reflexivity.
Qed.

Lemma existsb_isRateLimited errs :
  existsb isRateLimited errs = true <->
  exists e, e ∈ errs /\ type e = "RATE_LIMITED".
Proof.
  rewrite existsb_exists. unfold isRateLimited.
  split; intros [e [Hin He]]; exists e.
  - apply list_elem_of_In in Hin. apply String.eqb_eq in He. auto.
  - apply list_elem_of_In in Hin. apply String.eqb_eq in He. auto.
Qed.

(** C4: when the GraphQL endpoint answers with a response whose errors array
    contains an entry of type RATE_LIMITED, whatever else the array holds,
    [graphql] rejects with [RateLimitingError] carrying that very response,
    and not with the generic [GithubClientGraphQLError]. *)
Theorem graphql_rate_limited_is_distinct
    (w : World) (q : string) (vs : Params) (auth : RequestHeaders) (w1 : World)
    (response : Response (GraphQlQueryResponse Json)) (errs : list GraphQLError) :
  installationAuthenticationHeaders w = (Ok auth, w1) ->
  graphqlEndpoint env (length (requests w1)) (graphqlRequest q vs auth) = Ok response ->
  errors (data response) = Some errs ->
  (exists e, e ∈ errs /\ type e = "RATE_LIMITED") ->
  (graphql q vs w).1 = Err (RateLimitingError response)
  /\ forall msg es, (graphql q vs w).1 <> Err (GithubClientGraphQLError msg es).
Proof.
  intros Hauth Hnet Herrs Hrate.
  assert (H : (graphql q vs w).1 = Err (RateLimitingError response)).
  { rewrite graphql_run, Hauth. cbv zeta. rewrite Hnet. simpl.
    unfold graphqlVerdict. rewrite Herrs.
    apply existsb_isRateLimited in Hrate.
    destruct errs as [|first others]; [discriminate Hrate|].
    rewrite Hrate. reflexivity. }
  split; [exact H|]. intros msg es. rewrite H. discriminate.
Qed.

(** C6: when the GraphQL endpoint answers with a non-empty errors array that
    holds no RATE_LIMITED entry, [graphql] rejects with
    [GithubClientGraphQLError] whose message is the first error's message
    when it is the only error, and that message followed by
    " and <n> more errors", n the number of remaining errors, otherwise. *)
Theorem graphql_error_message_counts_the_rest
    (w : World) (q : string) (vs : Params) (auth : RequestHeaders) (w1 : World)
    (response : Response (GraphQlQueryResponse Json))
    (first : GraphQLError) (others : list GraphQLError) :
  installationAuthenticationHeaders w = (Ok auth, w1) ->
  graphqlEndpoint env (length (requests w1)) (graphqlRequest q vs auth) = Ok response ->
  errors (data response) = Some (first :: others) ->
  (forall e, e ∈ first :: others -> type e <> "RATE_LIMITED") ->
  exists msg,
    (graphql q vs w).1 = Err (GithubClientGraphQLError msg (first :: others))
    /\ (others = [] -> msg = message first)
    /\ (others <> [] ->
        msg = message first ++ " and "
              ++ NilZero.string_of_uint (Nat.to_uint (length others))
              ++ " more errors").
Proof.
  intros Hauth Hnet Herrs Hnone.
  assert (Hex : existsb isRateLimited (first :: others) = false).
  { destruct (existsb isRateLimited (first :: others)) eqn:E; [|reflexivity].
    apply existsb_isRateLimited in E. destruct E as (e & Hin & He).
    destruct (Hnone e Hin He). }
  rewrite graphql_run, Hauth. cbv zeta. rewrite Hnet.
  unfold graphqlVerdict. rewrite Herrs, Hex. cbv zeta.
  eexists. split; [reflexivity|]. split.
  - intros ->. simpl. apply JsString.append_nil_r.
  - intros Hne. destruct others as [|second rest]; [contradiction|].
    cbn [length]. replace (1 <? S (S (length rest)))%nat with true
      by (symmetry; apply Nat.ltb_lt; lia).
    unfold moreErrors. replace (S (S (length rest)) - 1)%nat with (S (length rest)) by lia.
    reflexivity.
Qed.

(** The retry of [getBranchesPage] and [getCommitsPage], on the shape both
    share. *)
Lemma retry_without_changedFiles (qWith qWithout msg : string) (vs : Params) (w : World) :
  let attempt :=
    catch (graphql qWith vs)
      (fun err =>
         if negb (isChangedFilesError env err) then reject err
         else bind (warn msg) (fun _ => graphql qWithout vs)) in
  let first := graphql qWith vs w in
  match first.1 with
  | Ok response =>
      attempt w = (Ok response, first.2)
      /\ graphqlCalls (attempt w).2 = (graphqlCalls w ++ [(qWith, vs)])%list
  | Err err =>
      if isChangedFilesError env err
      then
        attempt w = graphql qWithout vs (warned msg first.2)
        /\ graphqlCalls (attempt w).2
           = (graphqlCalls w ++ [(qWith, vs); (qWithout, vs)])%list
      else
        attempt w = (Err err, first.2)
        /\ graphqlCalls (attempt w).2 = (graphqlCalls w ++ [(qWith, vs)])%list
  end.
Proof.
  cbv zeta. unfold catch.
  pose proof (graphql_calls qWith vs w) as Hcalls.
  destruct (graphql qWith vs w) as [[response|err] w1]; simpl in *.
  - split; [reflexivity | exact Hcalls].
  - destruct (isChangedFilesError env err); simpl.
    + unfold bind, warn. fold (warned msg w1).
      split; [reflexivity|]. rewrite graphql_calls. simpl. rewrite Hcalls.
      rewrite <- app_assoc. reflexivity.
    + unfold reject. split; [reflexivity | exact Hcalls].
Qed.

(** The retry policy of a page operation [op] that runs the query [qWith]
    on the variables [vs] and falls back on [qWithout]. *)
Definition retry_policy (qWith qWithout msg : string) (vs : Params)
    (op : M Json) (w : World) : Prop :=
  let first := graphql qWith vs w in
  (forall response,
     first.1 = Ok response ->
     op w = (Ok (payload (data response)), first.2)
     /\ graphqlCalls (op w).2 = (graphqlCalls w ++ [(qWith, vs)])%list)
  /\ (forall err,
       first.1 = Err err -> isChangedFilesError env err = true ->
       let second := graphql qWithout vs (warned msg first.2) in
       graphqlCalls (op w).2 = (graphqlCalls w ++ [(qWith, vs); (qWithout, vs)])%list
       /\ (op w).2 = second.2
       /\ (op w).1 = match second.1 with
                     | Ok response => Ok (payload (data response))
                     | Err e => Err e
                     end)
  /\ (forall err,
       first.1 = Err err -> isChangedFilesError env err = false ->
       op w = (Err err, first.2)
       /\ graphqlCalls (op w).2 = (graphqlCalls w ++ [(qWith, vs)])%list).

Lemma retry_policy_holds (qWith qWithout msg : string) (vs : Params) (w : World) :
  retry_policy qWith qWithout msg vs
    (bind
       (catch (graphql qWith vs)
          (fun err =>
             if negb (isChangedFilesError env err) then reject err
             else bind (warn msg) (fun _ => graphql qWithout vs)))
       (fun response => ret (payload (data response))))
    w.
Proof.
  pose proof (retry_without_changedFiles qWith qWithout msg vs w) as H.
  cbv zeta in H. unfold retry_policy. cbv zeta.
  set (attempt := catch _ _) in *.
  split; [|split].
  - intros response Hfirst. rewrite Hfirst in H. destruct H as [H1 H2].
    unfold bind. rewrite H1 in *. simpl in *. auto.
  - intros err Hfirst Hcf. rewrite Hfirst, Hcf in H. destruct H as [H1 H2].
    unfold bind. rewrite H1 in *.
    destruct (graphql qWithout vs _) as [[response|e] w2]; simpl in *; auto.
  - intros err Hfirst Hcf. rewrite Hfirst, Hcf in H. destruct H as [H1 H2].
    unfold bind. rewrite H1 in *. simpl in *. auto.
Qed.

(** C5: in [getBranchesPage] and in [getCommitsPage], when the first query
    (with changedFiles) is rejected with an error that [isChangedFilesError]
    recognises, [graphql] is invoked exactly once more, with the query
    without changedFiles and the same variables, and the outcome of that
    retry, success or failure, is the outcome of the page operation; when
    the first query is rejected with any other error, [graphql] is not
    invoked again and that error is the outcome; when it succeeds there is
    no retry either. *)
Theorem changedFiles_error_is_retried_once
    (owner repoName : string) (perPage : Z) (cursor : option string)
    (perPage' : option Z) (cursor' : Value) (w : World) :
  retry_policy
    (getBranchesQueryWithChangedFiles env)
    (getBranchesQueryWithoutChangedFiles env)
    "retrying branch graphql query without changedFiles"
    [("owner", VStr owner); ("repo", VStr repoName);
     ("per_page", VNum perPage); ("cursor", optional VStr cursor)]
    (getBranchesPage owner repoName perPage cursor) w
  /\ retry_policy
       (getCommitsQueryWithChangedFiles env)
       (getCommitsQueryWithoutChangedFiles env)
       "retrying commit graphql query without changedFiles"
       [("owner", VStr owner); ("repo", VStr repoName);
        ("per_page", optional VNum perPage'); ("cursor", cursor')]
       (getCommitsPage owner repoName perPage' cursor') w.
Proof.
  split; apply retry_policy_holds.
Qed.

Lemma nextPageAvailable_spec {T : Type} (response : Response T) :
  nextPageAvailable response = true <->
  exists link,
    responseHeaders response !! "link" = Some link
    /\ exists before after, link = before ++ REL_NEXT ++ after.
Proof.
  unfold nextPageAvailable.
  destruct (responseHeaders response !! "link") as [link|].
  - rewrite JsString.includes_spec. split.
    + intros H. exists link. auto.
    + intros (l & [= <-] & H). exact H.
  - split; [discriminate | intros (l & H & _); discriminate].
Qed.

(** C9: the [hasNextPage] flag of a page returned by [getRepositoriesPage]
    is true exactly when the response of the underlying GET has a link
    header and that header contains the marker rel="next" (the ten
    characters r e l = " n e x t ", the double quote being character 34);
    the flag is the same for every payload the response could carry. *)
Theorem hasNextPage_reads_the_link_header
    (page : Z) (w : World) (p : PaginatedAxiosResponse Json) (w' : World) :
  getRepositoriesPage page w = (Ok p, w') ->
  get "/installation/repositories?per_page={perPage}&page={page}" []
      [("perPage", VNum 100); ("page", VNum page)] w = (Ok (page_response p), w')
  /\ (hasNextPage p = true <->
      exists link,
        responseHeaders (page_response p) !! "link" = Some link
        /\ exists before after,
             link = before
                    ++ (String "r" (String "e" (String "l" (String "="
                     (String "034" (String "n" (String "e" (String "x" (String "t"
                     (String "034" EmptyString))))))))))%char
                    ++ after)
  /\ (forall d : Json,
        nextPageAvailable
          (mkResponse (status (page_response p))
                      (responseHeaders (page_response p)) d)
        = hasNextPage p).
Proof.
  unfold getRepositoriesPage, bind, ret.
  destruct (get _ _ _ w) as [[response|e] w1]; [|discriminate].
  intros [= <- <-]. simpl.
  split; [reflexivity|]. split; [exact (nextPageAvailable_spec response) | reflexivity].
Qed.

(** C8: the two authentication modes.  In a world [w]:
    - with a valid cached installation token, the installation headers carry
      that token and nothing is fetched;
    - without one, the fetch function handed to the cache asks the holder
      for an app token, sends one POST to the token-exchange url
      /app/installations/{githubInstallationId}/access_tokens with that
      app token as bearer, and builds the [AuthToken] from the [token] and
      [expires_at] of the answer; the cache stores it and the installation
      headers carry it; a rejected exchange is the outcome, nothing stored;
    - [get], [patch] and [graphql] send their request with the installation
      headers, and send nothing when those are not obtained;
    - [getInstallation] sends its request with the holder's app token as
      bearer and leaves the installation token cache alone. *)
Theorem authentication_modes (w : World) :
  let id := installationId githubInstallationId in
  let cachedValid :=
    InstallationTokenCache.validToken (margin env) (now w) id (tokens w) in
  let looked := withTokens (LRU.get id (tokens w)).2 w in
  let authorized (tok : AuthToken) :=
    {| Accept := "application/vnd.github.v3+json";
       Authorization := "Bearer " ++ token tok |} in
  let exchange (appTok : AuthToken) :=
    {| method := POST;
       url := "/app/installations/{githubInstallationId}/access_tokens";
       body := EmptyObject; headers := authorized appTok; params := [];
       urlParams := [("githubInstallationId", VNum id)] |} in
  (forall tok,
     cachedValid = Some tok ->
     installationAuthenticationHeaders w = (Ok (authorized tok), looked))
  /\ (forall appTok,
       cachedValid = None ->
       (appTokenAt w).1 = Ok appTok ->
       let w1 := sent (exchange appTok) (withHolder (appTokenAt w).2 looked) in
       match tokenEndpoint env (length (requests w)) (exchange appTok) with
       | Ok response =>
           let tok := mkAuthToken (token_string (data response))
                        (parseDate env (expires_at (data response))) in
           installationAuthenticationHeaders w
           = (Ok (authorized tok), withTokens (LRU.set id tok (tokens w1)) w1)
       | Err e => installationAuthenticationHeaders w = (Err e, w1)
       end)
  /\ (forall auth w1,
       installationAuthenticationHeaders w = (Ok auth, w1) ->
       (forall u ps us,
          requests (get u ps us w).2
          = (requests w1 ++ [mkRequest GET u NoBody auth ps us])%list)
       /\ (forall u b ps us,
            requests (patch u b ps us w).2
            = (requests w1 ++ [mkRequest PATCH u (Fields b) auth ps us])%list)
       /\ (forall q vs,
            requests (graphql q vs w).2
            = (requests w1
               ++ [mkRequest POST "/graphql" (GraphQLQuery q vs) auth [] []])%list))
  /\ (forall e w1,
       installationAuthenticationHeaders w = (Err e, w1) ->
       (forall u ps us, get u ps us w = (Err e, w1))
       /\ (forall u b ps us, patch u b ps us w = (Err e, w1))
       /\ (forall q vs, graphql q vs w = (Err e, entered q vs w1)))
  /\ (forall appTok id',
       (appTokenAt w).1 = Ok appTok ->
       requests (getInstallation id' w).2
       = (requests w
          ++ [mkRequest GET "/app/installations/{installationId}" NoBody
                (authorized appTok) [] [("installationId", VNum id')]])%list
       /\ tokens (getInstallation id' w).2 = tokens w).
Proof.
  cbv zeta. split; [|split; [|split; [|split]]].
  - intros tok Hv. exact (installationAuthenticationHeaders_hit w tok Hv).
  - intros appTok Hv Happ.
    rewrite (installationAuthenticationHeaders_miss w Hv). cbv zeta.
    rewrite createInstallationToken_run.
    change (appTokenAt (withTokens _ w)) with (appTokenAt w).
    rewrite Happ. cbv zeta. simpl.
    destruct (tokenEndpoint env _ _); reflexivity.
  - intros auth w1 Hauth. split; [|split].
    + intros u ps us. unfold get, bind. rewrite Hauth. reflexivity.
    + intros u b ps us. unfold patch, bind. rewrite Hauth. reflexivity.
    + intros q vs. rewrite graphql_run, Hauth. reflexivity.
  - intros e w1 Hauth. split; [|split].
    + intros u ps us. unfold get, bind. rewrite Hauth. reflexivity.
    + intros u b ps us. unfold patch, bind. rewrite Hauth. reflexivity.
    + intros q vs. rewrite graphql_run, Hauth. reflexivity.
  - intros appTok id' Happ. unfold getInstallation, bind.
    rewrite appAuthenticationHeaders_run, Happ. split; reflexivity.
Qed.

End Client.

Arguments Rejection {Json} reason.
Arguments SigningFailure {Json}.
Arguments RateLimitingError {Json} response.
Arguments GithubClientGraphQLError {Json} message errors.

(** *** A concrete environment

    A GitHub that is rate limited on one query, answers the queries with
    changedFiles by the "too expensive" error, and pages its repositories. *)

Definition demoIsChangedFilesError (err : ClientError string) : bool :=
  match err with
  | GithubClientGraphQLError _ errs =>
      existsb (fun e => JsString.includes "changedFiles" (message e)) errs
  | _ => false
  end.

Definition demoGraphql (n : nat) (req : Request)
  : result (ClientError string) (Response (GraphQlQueryResponse string)) :=
  match body req with
  | GraphQLQuery "rate limited" _ =>
      Ok (mkResponse 200 ∅
            (mkGraphQl "" (Some [mkGraphQLError "Could not resolve" "NOT_FOUND";
                                 mkGraphQLError "API rate limit exceeded" "RATE_LIMITED"])))
  | GraphQLQuery "broken" _ =>
      Ok (mkResponse 200 ∅
            (mkGraphQl "" (Some [mkGraphQLError "Parse error" "SYNTAX";
                                 mkGraphQLError "second" "OTHER";
                                 mkGraphQLError "third" "OTHER"])))
  | GraphQLQuery "branches with changedFiles" _
  | GraphQLQuery "commits with changedFiles" _ =>
      Ok (mkResponse 200 ∅
            (mkGraphQl "" (Some [mkGraphQLError
                                   "The changedFiles count for this commit is unavailable"
                                   "SERVICE_UNAVAILABLE"])))
  | GraphQLQuery _ _ => Ok (mkResponse 200 ∅ (mkGraphQl "page" None))
  | _ => Err (Rejection "not a graphql request")
  end.

Definition demoLink : string :=
  "<https://api.github.com/installation/repositories?page=2>; rel="
  ++ JsString.quote ++ "next" ++ JsString.quote.

Definition demoRest (n : nat) (req : Request)
  : result (ClientError string) (Response string) :=
  match urlParams req with
  | [("perPage", _); ("page", VNum 1)] =>
      Ok (mkResponse 200 {[ "link" := demoLink ]} "repositories 1..100")
  | _ => Ok (mkResponse 200 ∅ "payload")
  end.

Definition demoEnv : Env string :=
  {| sign := AppTokenHolder.demoSign;
     horizon := TEN_MINUTES;
     margin := ONE_MINUTE;
     parseDate := fun _ => 3600000;
     isChangedFilesError := demoIsChangedFilesError;
     getBranchesQueryWithChangedFiles := "branches with changedFiles";
     getBranchesQueryWithoutChangedFiles := "branches";
     getCommitsQueryWithChangedFiles := "commits with changedFiles";
     getCommitsQueryWithoutChangedFiles := "commits";
     tokenEndpoint := fun _ _ =>
       Ok (mkResponse 201 ∅ (mkTokenResponse "installation token" "2021-11-25T00:00:00Z"));
     graphqlEndpoint := demoGraphql;
     restEndpoint := demoRest |}.

Definition demoInstallation : InstallationId :=
  {| githubBaseUrl := "https://api.github.com"; appId := 106838;
     installationId := 17979017 |}.

(** A fresh process: nothing signed, nothing cached, nothing sent. *)
Definition demoWorld : World :=
  {| now := 0; holder := AppTokenHolder.create "key" "106838";
     tokens := LRU.create 1000; requests := []; warnings := [];
     graphqlCalls := [] |}.

Definition demoAuth : RequestHeaders :=
  {| Accept := "application/vnd.github.v3+json"; Authorization := "Bearer installation token" |}.

(** The world after the installation token has been fetched. *)
Definition demoAuthenticated : World :=
  (installationAuthenticationHeaders string demoEnv demoInstallation demoWorld).2.

Example demo_token_exchange :
  requests demoAuthenticated
  = [tokenRequest {| Accept := "application/vnd.github.v3+json";
                     Authorization := "Bearer key.0.600000.106838" |} 17979017]
  /\ LRU.cachedToken 17979017 (tokens demoAuthenticated)
     = Some (mkAuthToken "installation token" 3600000).
Proof. split; reflexivity. Qed.

Definition demoRateLimited : Response (GraphQlQueryResponse string) :=
  mkResponse 200 ∅
    (mkGraphQl "" (Some [mkGraphQLError "Could not resolve" "NOT_FOUND";
                         mkGraphQLError "API rate limit exceeded" "RATE_LIMITED"])).

Lemma graphql_rate_limited_is_distinct_witness :
  (graphql string demoEnv demoInstallation "rate limited" [] demoWorld).1
  = Err (RateLimitingError demoRateLimited)
  /\ forall msg es,
       (graphql string demoEnv demoInstallation "rate limited" [] demoWorld).1
       <> Err (GithubClientGraphQLError msg es).
Proof.
  apply (graphql_rate_limited_is_distinct string demoEnv demoInstallation
           demoWorld "rate limited" [] demoAuth demoAuthenticated demoRateLimited
           [mkGraphQLError "Could not resolve" "NOT_FOUND";
            mkGraphQLError "API rate limit exceeded" "RATE_LIMITED"]).
  - reflexivity.
  - reflexivity.
  - reflexivity.
  - exists (mkGraphQLError "API rate limit exceeded" "RATE_LIMITED").
    split; [right; left | reflexivity].
Defined.

Definition demoBroken : Response (GraphQlQueryResponse string) :=
  mkResponse 200 ∅
    (mkGraphQl "" (Some [mkGraphQLError "Parse error" "SYNTAX";
                         mkGraphQLError "second" "OTHER";
                         mkGraphQLError "third" "OTHER"])).

Lemma graphql_error_message_counts_the_rest_witness :
  exists msg,
    (graphql string demoEnv demoInstallation "broken" [] demoWorld).1
    = Err (GithubClientGraphQLError msg
             [mkGraphQLError "Parse error" "SYNTAX";
              mkGraphQLError "second" "OTHER"; mkGraphQLError "third" "OTHER"])
    /\ ([mkGraphQLError "second" "OTHER"; mkGraphQLError "third" "OTHER"] = [] ->
        msg = "Parse error")
    /\ ([mkGraphQLError "second" "OTHER"; mkGraphQLError "third" "OTHER"] <> [] ->
        msg = "Parse error" ++ " and "
              ++ NilZero.string_of_uint (Nat.to_uint 2) ++ " more errors").
Proof.
  apply (graphql_error_message_counts_the_rest string demoEnv demoInstallation
           demoWorld "broken" [] demoAuth demoAuthenticated demoBroken
           (mkGraphQLError "Parse error" "SYNTAX")
           [mkGraphQLError "second" "OTHER"; mkGraphQLError "third" "OTHER"]).
  - reflexivity.
  - reflexivity.
  - reflexivity.
  - intros e He.
    repeat (apply elem_of_cons in He; destruct He as [->|He]); try discriminate.
    inversion He.
Defined.

Example demo_broken_message :
  (graphql string demoEnv demoInstallation "broken" [] demoWorld).1
  = Err (GithubClientGraphQLError "Parse error and 2 more errors"
           [mkGraphQLError "Parse error" "SYNTAX";
            mkGraphQLError "second" "OTHER"; mkGraphQLError "third" "OTHER"]).
Proof. reflexivity. Qed.

Definition demoBranchVariables : Params :=
  [("owner", VStr "owner"); ("repo", VStr "repo");
   ("per_page", VNum 100); ("cursor", VUndefined)].

Lemma changedFiles_error_is_retried_once_witness :
  graphqlCalls
    (getBranchesPage string demoEnv demoInstallation "owner" "repo" 100 None demoWorld).2
  = [("branches with changedFiles", demoBranchVariables);
     ("branches", demoBranchVariables)]
  /\ (getBranchesPage string demoEnv demoInstallation "owner" "repo" 100 None demoWorld).1
     = Ok "page".
Proof.
  destruct (changedFiles_error_is_retried_once string demoEnv demoInstallation
              "owner" "repo" 100 None None VUndefined demoWorld)
    as [[_ [Hretry _]] _].
  destruct (Hretry
              (GithubClientGraphQLError
                 "The changedFiles count for this commit is unavailable"
                 [mkGraphQLError
                    "The changedFiles count for this commit is unavailable"
                    "SERVICE_UNAVAILABLE"])
              eq_refl eq_refl) as (H1 & H2 & H3).
  split; [exact H1 | rewrite H3; reflexivity].
Defined.

Example demo_other_error_is_not_retried :
  let r := getBranchesPage string
             {| sign := sign string demoEnv; horizon := TEN_MINUTES;
                margin := ONE_MINUTE; parseDate := parseDate string demoEnv;
                isChangedFilesError := demoIsChangedFilesError;
                getBranchesQueryWithChangedFiles := "broken";
                getBranchesQueryWithoutChangedFiles := "branches";
                getCommitsQueryWithChangedFiles := "broken";
                getCommitsQueryWithoutChangedFiles := "commits";
                tokenEndpoint := tokenEndpoint string demoEnv;
                graphqlEndpoint := demoGraphql; restEndpoint := demoRest |}
             demoInstallation "owner" "repo" 100 None demoWorld in
  map fst (graphqlCalls r.2) = ["broken"]
  /\ r.1 = Err (GithubClientGraphQLError "Parse error and 2 more errors"
                  [mkGraphQLError "Parse error" "SYNTAX";
                   mkGraphQLError "second" "OTHER"; mkGraphQLError "third" "OTHER"]).
Proof. split; reflexivity. Qed.

Definition demoRepositories : Response string :=
  mkResponse 200 {[ "link" := demoLink ]} "repositories 1..100".

Lemma hasNextPage_reads_the_link_header_witness :
  get string demoEnv demoInstallation
      "/installation/repositories?per_page={perPage}&page={page}" []
      [("perPage", VNum 100); ("page", VNum 1)] demoWorld
  = (Ok demoRepositories, sent (mkRequest GET
        "/installation/repositories?per_page={perPage}&page={page}" NoBody demoAuth []
        [("perPage", VNum 100); ("page", VNum 1)]) demoAuthenticated)
  /\ (hasNextPage (mkPaginated demoRepositories true) = true <->
      exists link,
        responseHeaders demoRepositories !! "link" = Some link
        /\ exists before after,
             link = before
                    ++ (String "r" (String "e" (String "l" (String "="
                     (String "034" (String "n" (String "e" (String "x" (String "t"
                     (String "034" EmptyString))))))))))%char
                    ++ after)
  /\ (forall d : string,
        nextPageAvailable (mkResponse 200 (responseHeaders demoRepositories) d) = true).
Proof.
  apply (hasNextPage_reads_the_link_header string demoEnv demoInstallation 1 demoWorld
           (mkPaginated demoRepositories true)).
  reflexivity.
Defined.

(** A link header that only points back does not announce a next page. *)
Example demo_prev_only :
  nextPageAvailable
    (mkResponse 200
       {[ "link" := "<https://api.github.com/installation/repositories?page=1>; rel="
                    ++ String "034"%char ("prev" ++ String "034"%char "") ]}
       "repositories 101..150")
  = false.
Proof. reflexivity. Qed.

Example demo_last_page :
  match getRepositoriesPage string demoEnv demoInstallation 2 demoWorld with
  | (Ok p, _) => hasNextPage p = false
  | _ => False
  end.
Proof. reflexivity. Qed.

Lemma authentication_modes_witness :
  installationAuthenticationHeaders string demoEnv demoInstallation demoWorld
  = (Ok demoAuth, demoAuthenticated)
  /\ requests (get string demoEnv demoInstallation "/repos/{owner}/{repo}/pulls" []
                 [("owner", VStr "owner"); ("repo", VStr "repo")] demoWorld).2
     = [tokenRequest {| Accept := "application/vnd.github.v3+json";
                        Authorization := "Bearer key.0.600000.106838" |} 17979017;
        mkRequest GET "/repos/{owner}/{repo}/pulls" NoBody demoAuth []
          [("owner", VStr "owner"); ("repo", VStr "repo")]]
  /\ requests (getInstallation string demoEnv demoInstallation 17979017 demoWorld).2
     = [installationRequest {| Accept := "application/vnd.github.v3+json";
                               Authorization := "Bearer key.0.600000.106838" |}
          17979017].
Proof.
  destruct (authentication_modes string demoEnv demoInstallation demoWorld)
    as (_ & Hmiss & Hsend & _ & Happ).
  pose proof (Hmiss (mkAuthToken "key.0.600000.106838" 600000) eq_refl eq_refl) as H1.
  cbv zeta in H1. simpl tokenEndpoint in H1. cbv beta iota in H1.
  split; [exact H1|]. split.
  - destruct (Hsend demoAuth demoAuthenticated eq_refl) as [Hget _].
    rewrite Hget. reflexivity.
  - destruct (Happ (mkAuthToken "key.0.600000.106838" 600000) 17979017 eq_refl)
      as [Hreq _].
    exact Hreq.
Defined.

(** *** The remaining public methods *)

Section Methods.

Variable Json : Type.
Variable env : Env Json.
Variable githubInstallationId : InstallationId.

Local Abbreviation get := (get Json env githubInstallationId) (only parsing).
Local Abbreviation patch := (patch Json env githubInstallationId) (only parsing).
Local Abbreviation graphql := (graphql Json env githubInstallationId) (only parsing).
Local Abbreviation installationAuthenticationHeaders :=
  (installationAuthenticationHeaders Json env githubInstallationId) (only parsing).
Local Abbreviation bind := (bind Json) (only parsing).
Local Abbreviation catch := (catch Json) (only parsing).
Local Abbreviation ret := (ret Json) (only parsing).
Local Abbreviation reject := (reject Json) (only parsing).
Local Abbreviation warn := (warn Json) (only parsing).

Definition getPullRequests (owner repo : string) (pullRequestParams : Params)
  : M Json (Response Json) :=
  get "/repos/{owner}/{repo}/pulls" pullRequestParams
    [("owner", VStr owner); ("repo", VStr repo)].

Definition getPullRequest (owner repo : string) (pullNumber : Value)
  : M Json (Response Json) :=
  get "/repos/{owner}/{repo}/pulls/{pullNumber}" []
    [("owner", VStr owner); ("repo", VStr repo); ("pullNumber", pullNumber)].

Definition getPullRequestReviews (owner repo : string) (pullNumber : Value)
  : M Json (Response Json) :=
  get "/repos/{owner}/{repo}/pulls/{pullNumber}/reviews" []
    [("owner", VStr owner); ("repo", VStr repo); ("pullNumber", pullNumber)].

Definition getUserByUsername (username : string) : M Json (Response Json) :=
  get "/users/{username}" [] [("username", VStr username)].

Definition getCommit (owner repo ref : string) : M Json (Response Json) :=
  get "/repos/{owner}/{repo}/commits/{ref}" []
    [("owner", VStr owner); ("repo", VStr repo); ("ref", VStr ref)].

Definition compareReferences (owner repo baseRef headRef : string)
  : M Json (Response Json) :=
  get "/repos/{owner}/{repo}/compare/{basehead}" []
    [("owner", VStr owner); ("repo", VStr repo);
     ("basehead", VStr (baseRef ++ "..." ++ headRef))].

Definition getRef (owner repo ref : string) : M Json (Response Json) :=
  get "/repos/{owner}/{repo}/git/ref/{ref}" []
    [("owner", VStr owner); ("repo", VStr repo); ("ref", VStr ref)].

Definition listDeployments (owner repo environment : string) (per_page : Z)
  : M Json (Response Json) :=
  get "/repos/{owner}/{repo}/deployments"
    [("environment", VStr environment); ("per_page", VNum per_page)]
    [("owner", VStr owner); ("repo", VStr repo)].

Definition listDeploymentStatuses (owner repo : string) (deployment_id per_page : Z)
  : M Json (Response Json) :=
  get "/repos/{owner}/{repo}/deployments/{deployment_id}/statuses"
    [("per_page", VNum per_page)]
    [("owner", VStr owner); ("repo", VStr repo);
     ("deployment_id", VNum deployment_id)].

Definition updateIssue (owner repo : string) (issue_number : Z) (body : Value)
  : M Json (Response Json) :=
  patch "/repos/{owner}/{repo}/issues/{issue_number}" [("body", body)] []
    [("owner", VStr owner); ("repo", VStr repo);
     ("issue_number", VNum issue_number)].

Definition updateIssueComment (owner repo : string) (comment_id : Z) (body : Value)
  : M Json (Response Json) :=
  patch "/repos/{owner}/{repo}/issues/comments/{comment_id}" [("body", body)] []
    [("owner", VStr owner); ("repo", VStr repo);
     ("comment_id", VNum comment_id)].

(** The public methods of the client, as calls. *)
Inductive PublicCall : Type :=
| GetPullRequests (owner repo : string) (pullRequestParams : Params)
| GetPullRequest (owner repo : string) (pullNumber : Value)
| GetPullRequestReviews (owner repo : string) (pullNumber : Value)
| GetUserByUsername (username : string)
| GetCommit (owner repo ref : string)
| CompareReferences (owner repo baseRef headRef : string)
| GetRef (owner repo ref : string)
| GetRepositoriesPage (page : Z)
| GetInstallation (installationId : Z)
| ListDeployments (owner repo environment : string) (per_page : Z)
| ListDeploymentStatuses (owner repo : string) (deployment_id per_page : Z)
| UpdateIssue (owner repo : string) (issue_number : Z) (body : Value)
| GetBranchesPage (owner repoName : string) (perPage : Z) (cursor : option string)
| GetCommitsPage (owner repoName : string) (perPage : option Z) (cursor : Value)
| UpdateIssueComment (owner repo : string) (comment_id : Z) (body : Value).

(** The world a call leaves behind. *)
Definition after (c : PublicCall) (w : World) : World :=
  match c with
  | GetPullRequests o r ps => (getPullRequests o r ps w).2
  | GetPullRequest o r n => (getPullRequest o r n w).2
  | GetPullRequestReviews o r n => (getPullRequestReviews o r n w).2
  | GetUserByUsername u => (getUserByUsername u w).2
  | GetCommit o r ref => (getCommit o r ref w).2
  | CompareReferences o r b h => (compareReferences o r b h w).2
  | GetRef o r ref => (getRef o r ref w).2
  | GetRepositoriesPage p => (getRepositoriesPage Json env githubInstallationId p w).2
  | GetInstallation i => (getInstallation Json env githubInstallationId i w).2
  | ListDeployments o r e n => (listDeployments o r e n w).2
  | ListDeploymentStatuses o r d n => (listDeploymentStatuses o r d n w).2
  | UpdateIssue o r i b => (updateIssue o r i b w).2
  | GetBranchesPage o r n c =>
      (getBranchesPage Json env githubInstallationId o r n c w).2
  | GetCommitsPage o r n c =>
      (getCommitsPage Json env githubInstallationId o r n c w).2
  | UpdateIssueComment o r i b => (updateIssueComment o r i b w).2
  end.

(** The names between braces in a url template, in order. *)
Fixpoint placeholdersFrom (inside : option string) (s : string) : list string :=
  match s with
  | EmptyString => []
  | String c rest =>
      match inside with
      | None =>
          if Ascii.eqb c "{" then placeholdersFrom (Some "") rest
          else placeholdersFrom None rest
      | Some name =>
          if Ascii.eqb c "}" then name :: placeholdersFrom None rest
          else placeholdersFrom (Some (name ++ String c "")) rest
      end
  end.

Definition placeholders (template : string) : list string :=
  placeholdersFrom None template.

(** A request as the GitHub API expects it from the app: the v3 media type,
    a bearer credential, and a value for each placeholder of its url, no
    more and no less. *)
Definition wellFormed (r : Request) : Prop :=
  Accept (headers r) = "application/vnd.github.v3+json"
  /\ (exists credential, Authorization (headers r) = "Bearer " ++ credential)
  /\ placeholders (url r) = map fst (urlParams r).

(** From [w] to [w'] at most [k] requests were sent, all well formed. *)
Definition sendsAtMost (k : nat) (w w' : World) : Prop :=
  exists new,
    requests w' = (requests w ++ new)%list
    /\ (length new <= k)%nat
    /\ Forall wellFormed new.

Lemma sendsAtMost_none w w' : requests w' = requests w -> sendsAtMost 0 w w'.
Proof.
  intros H. exists []. rewrite app_nil_r. split; [exact H|]. split; [simpl; lia | constructor].
Qed.

Lemma sendsAtMost_one req w w' :
  wellFormed req -> requests w' = (requests w ++ [req])%list -> sendsAtMost 1 w w'.
Proof.
  intros Hwf H. exists [req]. split; [exact H|]. split; [simpl; lia|].
  constructor; [exact Hwf | constructor].
Qed.

Lemma sendsAtMost_trans a b w w1 w2 :
  sendsAtMost a w w1 -> sendsAtMost b w1 w2 -> sendsAtMost (a + b) w w2.
Proof.
  intros (n1 & H1 & L1 & F1) (n2 & H2 & L2 & F2). exists (n1 ++ n2)%list.
  split; [rewrite H2, H1, app_assoc; reflexivity|].
  split; [rewrite length_app; lia | apply Forall_app; auto].
Qed.

Lemma sendsAtMost_weaken a b w w' :
  (a <= b)%nat -> sendsAtMost a w w' -> sendsAtMost b w w'.
Proof.
  intros Hab (n & H & L & F). exists n. split; [exact H|]. split; [lia | exact F].
Qed.

Lemma bearer_wellFormed tok m u b ps us :
  placeholders u = map fst us ->
  wellFormed (mkRequest m u b (bearer tok) ps us).
Proof.
  intros H. split; [reflexivity|]. split; [|exact H]. exists (token tok). reflexivity.
Qed.

(** Obtaining the installation headers costs at most the token exchange,
    and what is obtained is a bearer credential. *)
Lemma installationAuthenticationHeaders_sends w :
  sendsAtMost 1 w (installationAuthenticationHeaders w).2
  /\ forall auth,
       (installationAuthenticationHeaders w).1 = Ok auth ->
       exists tok, auth = bearer tok.
Proof.
  destruct (InstallationTokenCache.validToken (margin Json env) (now w)
              (installationId githubInstallationId) (tokens w)) as [tok|] eqn:Hv.
  - rewrite (installationAuthenticationHeaders_hit Json env githubInstallationId w tok Hv).
    split.
    + apply (sendsAtMost_weaken 0); [lia|]. apply sendsAtMost_none. reflexivity.
    + intros auth [= <-]. eauto.
  - rewrite (installationAuthenticationHeaders_miss Json env githubInstallationId w Hv).
    cbv zeta. rewrite createInstallationToken_run.
    destruct ((appTokenAt Json env _).1) as [appTok|e].
    + cbv zeta. destruct (tokenEndpoint Json env _ _) as [response|e]; simpl; split;
        try (intros auth [= <-]; eauto); try (intros auth H; discriminate H);
        (eapply sendsAtMost_one; [|reflexivity]);
        apply bearer_wellFormed; reflexivity.
    + simpl. split; [|intros auth H; discriminate H].
      apply (sendsAtMost_weaken 0); [lia|]. apply sendsAtMost_none. reflexivity.
Qed.

Lemma get_sends u ps us w :
  placeholders u = map fst us -> sendsAtMost 2 w (get u ps us w).2.
Proof.
  intros Hb. destruct (installationAuthenticationHeaders_sends w) as [Hs Hauth].
  unfold Client.get, bind.
  destruct (installationAuthenticationHeaders w) as [[auth|e] w1]; simpl in *.
  - destruct (Hauth auth eq_refl) as [tok ->].
    apply (sendsAtMost_trans 1 1 w w1); [exact Hs|].
    eapply sendsAtMost_one; [|reflexivity]. apply bearer_wellFormed. exact Hb.
  - apply (sendsAtMost_weaken 1); [lia | exact Hs].
Qed.

Lemma patch_sends u b ps us w :
  placeholders u = map fst us -> sendsAtMost 2 w (patch u b ps us w).2.
Proof.
  intros Hb. destruct (installationAuthenticationHeaders_sends w) as [Hs Hauth].
  unfold Client.patch, bind.
  destruct (installationAuthenticationHeaders w) as [[auth|e] w1]; simpl in *.
  - destruct (Hauth auth eq_refl) as [tok ->].
    apply (sendsAtMost_trans 1 1 w w1); [exact Hs|].
    eapply sendsAtMost_one; [|reflexivity]. apply bearer_wellFormed. exact Hb.
  - apply (sendsAtMost_weaken 1); [lia | exact Hs].
Qed.

Lemma graphql_sends q vs w : sendsAtMost 2 w (graphql q vs w).2.
Proof.
  destruct (installationAuthenticationHeaders_sends w) as [Hs Hauth].
  rewrite graphql_run.
  destruct (installationAuthenticationHeaders w) as [[auth|e] w1]; simpl in *.
  - destruct (Hauth auth eq_refl) as [tok ->].
    destruct Hs as (n & H & L & F). exists (n ++ [graphqlRequest q vs (bearer tok)])%list.
    split; [simpl; rewrite H, app_assoc; reflexivity|].
    split; [rewrite length_app; simpl; lia|].
    apply Forall_app. split; [exact F|].
    constructor; [|constructor]. apply bearer_wellFormed. reflexivity.
  - destruct Hs as (n & H & L & F). exists n.
    split; [exact H|]. split; [lia | exact F].
Qed.

Lemma page_sends (qWith qWithout msg : string) (vs : Params) (w : World) :
  sendsAtMost 4 w
    (bind
       (catch (graphql qWith vs)
          (fun err =>
             if negb (isChangedFilesError Json env err) then reject err
             else bind (warn msg) (fun _ => graphql qWithout vs)))
       (fun response => ret (payload (data response))) w).2.
Proof.
  pose proof (graphql_sends qWith vs w) as H1.
  unfold bind at 1. unfold catch.
  destruct (graphql qWith vs w) as [[response|err] w1]; simpl in *.
  - apply (sendsAtMost_weaken 2); [lia | exact H1].
  - destruct (isChangedFilesError Json env err); simpl.
    + unfold bind, warn.
      match goal with
      | |- context [Client.graphql _ _ _ qWithout vs ?w2] =>
          pose proof (graphql_sends qWithout vs w2) as H2;
          destruct (Client.graphql _ _ _ qWithout vs w2) as [[r2|e2] w3]
      end; simpl in *;
        apply (sendsAtMost_trans 2 2 w w1) in H2; auto.
    + unfold reject. apply (sendsAtMost_weaken 2); [lia | exact H1].
Qed.

(** X8: whichever public method is called and whatever the network answers,
    the client sends at most four requests (two unless a page query is
    retried), and each of them carries the v3 media type, a bearer
    credential, and url parameters that are exactly the placeholders of its
    url template. *)
Theorem every_public_call_sends_well_formed_requests (c : PublicCall) (w : World) :
  sendsAtMost 4 w (after c w)
  /\ (match c with
      | GetBranchesPage _ _ _ _ | GetCommitsPage _ _ _ _ => True
      | _ => sendsAtMost 2 w (after c w)
      end).
Proof.
  assert (Hget : forall u ps us, placeholders u = map fst us ->
                 sendsAtMost 4 w (get u ps us w).2 /\ sendsAtMost 2 w (get u ps us w).2).
  { intros u ps us Hb. pose proof (get_sends u ps us w Hb) as H.
    split; [apply (sendsAtMost_weaken 2); [lia | exact H] | exact H]. }
  assert (Hpatch : forall u b ps us, placeholders u = map fst us ->
                 sendsAtMost 4 w (patch u b ps us w).2
                 /\ sendsAtMost 2 w (patch u b ps us w).2).
  { intros u b ps us Hb. pose proof (patch_sends u b ps us w Hb) as H.
    split; [apply (sendsAtMost_weaken 2); [lia | exact H] | exact H]. }
  destruct c; simpl;
    try (apply Hget; reflexivity); try (apply Hpatch; reflexivity).
  - (* getRepositoriesPage *)
    unfold getRepositoriesPage, bind.
    match goal with
    | |- context [Client.get _ _ _ ?u ?ps ?us w] =>
        destruct (Hget u ps us eq_refl) as [H4 H2];
        destruct (Client.get _ _ _ u ps us w) as [[r|e] w1]
    end; simpl in *; auto.
  - (* getInstallation *)
    unfold getInstallation, bind. rewrite appAuthenticationHeaders_run.
    assert (H : forall tok, sendsAtMost 1 w
                  (sent (installationRequest (bearer tok) installationId0)
                     (withHolder (appTokenAt Json env w).2 w))).
    { intros tok. eapply sendsAtMost_one; [|reflexivity].
      apply bearer_wellFormed. reflexivity. }
    destruct ((appTokenAt Json env w).1) as [tok|e]; simpl.
    + split; (eapply sendsAtMost_weaken; [|apply (H tok)]); lia.
    + split; (eapply sendsAtMost_weaken; [|apply sendsAtMost_none; reflexivity]); lia.
  - (* getBranchesPage *)
    split; [|exact I]. apply page_sends.
  - (* getCommitsPage *)
    split; [|exact I]. apply page_sends.
Qed.

(** X6: [graphql] resolves exactly when the answer carries no errors, an
    absent errors array or an empty one, and then it resolves to the answer
    itself. *)
Theorem graphql_resolves_iff_no_errors
    (w : World) (q : string) (vs : Params) (auth : RequestHeaders) (w1 : World)
    (response : Response (GraphQlQueryResponse Json)) :
  installationAuthenticationHeaders w = (Ok auth, w1) ->
  graphqlEndpoint Json env (length (requests w1)) (graphqlRequest q vs auth)
  = Ok response ->
  ((exists r, (graphql q vs w).1 = Ok r) <->
   errors (data response) = None \/ errors (data response) = Some [])
  /\ (forall r, (graphql q vs w).1 = Ok r -> r = response).
Proof.
  intros Hauth Hnet. rewrite graphql_run, Hauth. cbv zeta. rewrite Hnet.
  unfold graphqlVerdict. cbn [fst snd].
  destruct (errors (data response)) as [[|first others]|].
  - split; [split; eauto | intros r [= <-]; reflexivity].
  - destruct (existsb (isRateLimited) (first :: others)).
    + split; [|intros r H; discriminate H].
      split; [intros [r H]; discriminate H | intros [H|H]; discriminate H].
    + split; [|intros r H; discriminate H].
      split; [intros [r H]; discriminate H | intros [H|H]; discriminate H].
  - split; [split; eauto | intros r [= <-]; reflexivity].
Qed.

Lemma installationAuthenticationHeaders_warnings w :
  warnings (installationAuthenticationHeaders w).2 = warnings w.
Proof.
  destruct (InstallationTokenCache.validToken (margin Json env) (now w)
              (installationId githubInstallationId) (tokens w)) as [tok|] eqn:Hv.
  - rewrite (installationAuthenticationHeaders_hit Json env githubInstallationId w tok Hv).
    reflexivity.
  - rewrite (installationAuthenticationHeaders_miss Json env githubInstallationId w Hv).
    cbv zeta. rewrite createInstallationToken_run.
    destruct ((appTokenAt Json env _).1); [|reflexivity]. cbv zeta.
    destruct (tokenEndpoint Json env _ _); reflexivity.
Qed.

Lemma graphql_warnings q vs w : warnings (graphql q vs w).2 = warnings w.
Proof.
  rewrite graphql_run. pose proof (installationAuthenticationHeaders_warnings w) as H.
  destruct (installationAuthenticationHeaders w) as [[auth|e] w1]; simpl in *;
    exact H.
Qed.

(** The warnings a page operation adds to the log. *)
Definition retryWarning (qWith msg : string) (vs : Params) (w : World)
  : list string :=
  match (graphql qWith vs w).1 with
  | Ok _ => []
  | Err err => if isChangedFilesError Json env err then [msg] else []
  end.

Lemma page_warnings (qWith qWithout msg : string) (vs : Params) (w : World) :
  warnings
    (bind
       (catch (graphql qWith vs)
          (fun err =>
             if negb (isChangedFilesError Json env err) then reject err
             else bind (warn msg) (fun _ => graphql qWithout vs)))
       (fun response => ret (payload (data response))) w).2
  = (warnings w ++ retryWarning qWith msg vs w)%list.
Proof.
  unfold retryWarning. pose proof (graphql_warnings qWith vs w) as H1.
  unfold bind at 1. unfold catch.
  destruct (graphql qWith vs w) as [[response|err] w1]; simpl in *.
  - rewrite H1, app_nil_r. reflexivity.
  - destruct (isChangedFilesError Json env err); simpl.
    + unfold bind, warn.
      match goal with
      | |- context [Client.graphql _ _ _ qWithout vs ?w2] =>
          pose proof (graphql_warnings qWithout vs w2) as H2;
          destruct (Client.graphql _ _ _ qWithout vs w2) as [[r2|e2] w3]
      end; simpl in *; rewrite H2, H1; reflexivity.
    + unfold reject. simpl. rewrite H1, app_nil_r. reflexivity.
Qed.

(** X7: [getBranchesPage] and [getCommitsPage] log their "retrying ..."
    warning once when the first query fails with an error that
    [isChangedFilesError] recognises, and log nothing in every other case:
    a warning in the log means a retry took place. *)
Theorem retry_warning_is_logged_exactly_on_retry
    (owner repoName : string) (perPage : Z) (cursor : option string)
    (perPage' : option Z) (cursor' : Value) (w : World) :
  warnings (getBranchesPage Json env githubInstallationId
              owner repoName perPage cursor w).2
  = (warnings w
     ++ retryWarning (getBranchesQueryWithChangedFiles Json env)
          "retrying branch graphql query without changedFiles"
          [("owner", VStr owner); ("repo", VStr repoName);
           ("per_page", VNum perPage); ("cursor", optional VStr cursor)] w)%list
  /\ warnings (getCommitsPage Json env githubInstallationId
                 owner repoName perPage' cursor' w).2
     = (warnings w
        ++ retryWarning (getCommitsQueryWithChangedFiles Json env)
             "retrying commit graphql query without changedFiles"
             [("owner", VStr owner); ("repo", VStr repoName);
              ("per_page", optional VNum perPage'); ("cursor", cursor')] w)%list.
Proof.
  split; apply page_warnings.
Qed.

(** X9: consecutive calls share one token exchange.  When a call finds no
    valid installation token, the app token is signed, the exchange answers
    with a token that is not about to expire, and the cache has room, then
    every call that follows at the same instant sends its own request only,
    bearing the token of that exchange, and does not ask the holder again. *)
Theorem consecutive_calls_share_the_token
    (w : World) (appTok : AuthToken) (response : Response TokenResponse)
    (u : string) (ps us : Params) (u' : string) (ps' us' : Params) :
  let id := installationId githubInstallationId in
  let tok := mkAuthToken (token_string (data response))
               (parseDate Json env (expires_at (data response))) in
  InstallationTokenCache.validToken (margin Json env) (now w) id (tokens w) = None ->
  (appTokenAt Json env w).1 = Ok appTok ->
  tokenEndpoint Json env (length (requests w)) (tokenRequest (bearer appTok) id)
  = Ok response ->
  now w + margin Json env < expiresAt tok ->
  (0 < LRU.capacity (tokens w))%nat ->
  let w1 := (get u ps us w).2 in
  requests w1
  = (requests w ++ [tokenRequest (bearer appTok) id;
                    mkRequest GET u NoBody (bearer tok) ps us])%list
  /\ requests (get u' ps' us' w1).2
     = (requests w1 ++ [mkRequest GET u' NoBody (bearer tok) ps' us'])%list
  /\ holder (get u' ps' us' w1).2 = holder w1.
Proof.
  intros id tok Hv Happ Hnet Hfresh Hcap.
  assert (Hauth : installationAuthenticationHeaders w
                  = (Ok (bearer tok),
                     withTokens
                       (LRU.set id tok (LRU.get id (tokens w)).2)
                       (sent (tokenRequest (bearer appTok) id)
                          (withHolder (appTokenAt Json env w).2
                             (withTokens (LRU.get id (tokens w)).2 w))))).
  { rewrite (installationAuthenticationHeaders_miss Json env githubInstallationId w Hv).
    cbv zeta. rewrite createInstallationToken_run.
    change (appTokenAt Json env (withTokens _ w)) with (appTokenAt Json env w).
    rewrite Happ. cbv zeta. simpl. fold id. rewrite Hnet. reflexivity. }
  set (w0 := withTokens _ _) in Hauth.
  assert (Hw1 : (get u ps us w).2
                = sent (mkRequest GET u NoBody (bearer tok) ps us) w0).
  { unfold Client.get, bind. rewrite Hauth. reflexivity. }
  assert (Hv1 : InstallationTokenCache.validToken (margin Json env)
                  (now (sent (mkRequest GET u NoBody (bearer tok) ps us) w0)) id
                  (tokens (sent (mkRequest GET u NoBody (bearer tok) ps us) w0))
                = Some tok).
  { unfold InstallationTokenCache.validToken. simpl.
    rewrite LRU.cachedToken_set_same by (rewrite LRU.get_capacity; exact Hcap).
    apply isAboutToExpire_false in Hfresh. rewrite Hfresh. reflexivity. }
  cbv zeta. rewrite Hw1.
  split; [simpl; rewrite <- app_assoc; reflexivity|].
  unfold Client.get, bind.
  rewrite (installationAuthenticationHeaders_hit Json env githubInstallationId _ tok Hv1).
  split; reflexivity.
Qed.

End Methods.

Definition demoPage : Response (GraphQlQueryResponse string) :=
  mkResponse 200 ∅ (mkGraphQl "page" None).

Lemma graphql_resolves_iff_no_errors_witness :
  ((exists r,
      (graphql string demoEnv demoInstallation "viewer" [] demoWorld).1 = Ok r) <->
   errors (data demoPage) = None \/ errors (data demoPage) = Some [])
  /\ (forall r,
        (graphql string demoEnv demoInstallation "viewer" [] demoWorld).1 = Ok r ->
        r = demoPage).
Proof.
  apply (graphql_resolves_iff_no_errors string demoEnv demoInstallation demoWorld
           "viewer" [] demoAuth demoAuthenticated demoPage).
  - reflexivity.
  - reflexivity.
Defined.

Definition demoAppToken : AuthToken := mkAuthToken "key.0.600000.106838" 600000.

Definition demoExchange : Response TokenResponse :=
  mkResponse 201 ∅ (mkTokenResponse "installation token" "2021-11-25T00:00:00Z").

Definition demoInstallationToken : AuthToken :=
  mkAuthToken "installation token" 3600000.

Lemma consecutive_calls_share_the_token_witness :
  let w1 := (get string demoEnv demoInstallation "/users/{username}" []
               [("username", VStr "octocat")] demoWorld).2 in
  requests w1
  = (requests demoWorld
     ++ [tokenRequest (bearer demoAppToken) 17979017;
         mkRequest GET "/users/{username}" NoBody (bearer demoInstallationToken) []
           [("username", VStr "octocat")]])%list
  /\ requests (get string demoEnv demoInstallation "/repos/{owner}/{repo}/pulls" []
                 [("owner", VStr "owner"); ("repo", VStr "repo")] w1).2
     = (requests w1
        ++ [mkRequest GET "/repos/{owner}/{repo}/pulls" NoBody
              (bearer demoInstallationToken) []
              [("owner", VStr "owner"); ("repo", VStr "repo")]])%list
  /\ holder (get string demoEnv demoInstallation "/repos/{owner}/{repo}/pulls" []
               [("owner", VStr "owner"); ("repo", VStr "repo")] w1).2
     = holder w1.
Proof.
  apply (consecutive_calls_share_the_token string demoEnv demoInstallation demoWorld
           demoAppToken demoExchange).
  - reflexivity.
  - reflexivity.
  - reflexivity.
  - reflexivity.
  - simpl. lia.
Defined.

Example demo_well_formed_compare :
  requests (after string demoEnv demoInstallation
              (CompareReferences "owner" "repo" "main" "feature") demoAuthenticated)
  = (requests demoAuthenticated
     ++ [mkRequest GET "/repos/{owner}/{repo}/compare/{basehead}" NoBody demoAuth []
           [("owner", VStr "owner"); ("repo", VStr "repo");
            ("basehead", VStr "main...feature")]])%list
  /\ placeholders "/repos/{owner}/{repo}/compare/{basehead}"
     = ["owner"; "repo"; "basehead"].
Proof. split; reflexivity. Qed.

End Client.

(** ** Repository id transformation ([transform-repository-id.ts]) *)

Module Transform.

(** What [new URL(url)] exposes of a url that parses.  Both components are
    ASCII: the URL standard serialises hosts and paths that way. *)
Record ParsedUrl : Type := mkParsedUrl {
  host : string;
  pathname : string
}.

Inductive Failure : Type :=
| InvalidUrl (input : string).

Definition isUpper (c : ascii) : bool :=
  (65 <=? nat_of_ascii c)%nat && (nat_of_ascii c <=? 90)%nat.
Definition isLower (c : ascii) : bool :=
  (97 <=? nat_of_ascii c)%nat && (nat_of_ascii c <=? 122)%nat.
Definition isDigit (c : ascii) : bool :=
  (48 <=? nat_of_ascii c)%nat && (nat_of_ascii c <=? 57)%nat.

(** [s.toLowerCase()] on ASCII text. *)
Definition lowerChar (c : ascii) : ascii :=
  if isUpper c then ascii_of_nat (nat_of_ascii c + 32) else c.

Fixpoint toLowerCase (s : string) : string :=
  match s with
  | EmptyString => EmptyString
  | String c rest => String (lowerChar c) (toLowerCase rest)
  end.

(** [s.replace(/[\W_]/g, '')]: only letters and digits stay. *)
Definition isWordNotUnderscore (c : ascii) : bool :=
  isUpper c || isLower c || isDigit c.

Fixpoint stripNonAlphanumeric (s : string) : string :=
  match s with
  | EmptyString => EmptyString
  | String c rest =>
      if isWordNotUnderscore c then String c (stripNonAlphanumeric rest)
      else stripNonAlphanumeric rest
  end.

Definition hexDigit (n : nat) : ascii :=
  if (n <? 10)%nat then ascii_of_nat (48 + n) else ascii_of_nat (87 + n).

(** [Buffer.from(s).toString('hex')]: two lowercase hex digits per byte. *)
Fixpoint toHex (s : string) : string :=
  match s with
  | EmptyString => EmptyString
  | String c rest =>
      String (hexDigit (nat_of_ascii c / 16))
        (String (hexDigit (nat_of_ascii c mod 16)) (toHex rest))
  end.

Definition isHexDigit (c : ascii) : bool :=
  isDigit c || ((97 <=? nat_of_ascii c)%nat && (nat_of_ascii c <=? 102)%nat).

Fixpoint allChars (p : ascii -> bool) (s : string) : bool :=
  match s with
  | EmptyString => true
  | String c rest => p c && allChars p rest
  end.

(** [Number.MAX_SAFE_INTEGER], 2^53 - 1. *)
Definition MAX_SAFE_INTEGER : Z := 9007199254740991.

(** [Number.isSafeInteger(n)]: the integers a JavaScript number holds
    exactly.  Repository ids are such integers. *)
Definition isSafeInteger (n : Z) : Prop :=
  - MAX_SAFE_INTEGER <= n <= MAX_SAFE_INTEGER.

(** ["" + n] for a safe integer [n]: its decimal digits, after a minus sign
    when it is negative.  Outside the safe integers a number is rendered
    otherwise (in exponent notation from 10^21 on) and this function is not
    a model of it: every statement below is about safe integers. *)
Definition numberToString (n : Z) : string :=
  NilZero.string_of_int (Z.to_int n).

Section Transform.

(** [new URL(url)]; [None] when the constructor throws. *)
Variable parseUrl : string -> option ParsedUrl.
(** The constant of [utils/get-github-client-config]. *)
Variable GITHUB_CLOUD_BASEURL : string.

Definition calculatePrefix (url : string) : result Failure string :=
  match parseUrl url with
  | Some parsedUrl =>
      Ok (substring 0 512
            (toHex (stripNonAlphanumeric
                      (toLowerCase (host parsedUrl ++ pathname parsedUrl)))))
  | None => Err (InvalidUrl url)
  end.

(** [useRepoIdTransformer] is what the feature flag resolves to;
    [gitHubBaseUrl] is [None] for [undefined]. *)
Definition transformRepositoryId (useRepoIdTransformer : bool)
    (repositoryId : Z) (gitHubBaseUrl : option string) : result Failure string :=
  if negb useRepoIdTransformer then Ok (numberToString repositoryId)
  else
    match gitHubBaseUrl with
    | None | Some EmptyString => Ok (numberToString repositoryId)
    | Some url =>
        match calculatePrefix url with
        | Err e => Err e
        | Ok prefix =>
            match calculatePrefix GITHUB_CLOUD_BASEURL with
            | Err e => Err e
            | Ok cloudPrefix =>
                if String.eqb prefix cloudPrefix
                then Ok (numberToString repositoryId)
                else
                  match calculatePrefix url with
                  | Err e => Err e
                  | Ok again => Ok (again ++ "-" ++ numberToString repositoryId)
                  end
            end
        end
    end.

(** The prefixes of the two urls are computed and equal. *)
Definition samePrefixAsCloud (gitHubBaseUrl : option string) : Prop :=
  exists url prefix,
    gitHubBaseUrl = Some url
    /\ calculatePrefix url = Ok prefix
    /\ calculatePrefix GITHUB_CLOUD_BASEURL = Ok prefix.

(** The behaviour read off the three conditions alone: the plain id under
    any of them, the prefixed id in every other case. *)
Definition plain_only_under_the_three_conditions : Prop :=
  forall (flag : bool) (repositoryId : Z) (gitHubBaseUrl : option string),
    isSafeInteger repositoryId ->
    ((flag = false \/ gitHubBaseUrl = None \/ samePrefixAsCloud gitHubBaseUrl) ->
     transformRepositoryId flag repositoryId gitHubBaseUrl
     = Ok (numberToString repositoryId))
    /\ (~ (flag = false \/ gitHubBaseUrl = None \/ samePrefixAsCloud gitHubBaseUrl) ->
        exists url prefix,
          gitHubBaseUrl = Some url
          /\ calculatePrefix url = Ok prefix
          /\ transformRepositoryId flag repositoryId gitHubBaseUrl
             = Ok (prefix ++ "-" ++ numberToString repositoryId)).

Lemma hexDigit_isHexDigit n : (n < 16)%nat -> isHexDigit (hexDigit n) = true.
Proof.
  intros H. do 16 (destruct n as [|n]; [reflexivity|]). lia.
Qed.

Lemma toHex_isHex s : allChars isHexDigit (toHex s) = true.
Proof.
  induction s as [|c rest IH]; [reflexivity|]. cbn [toHex allChars].
  pose proof (nat_ascii_bounded c) as Hc.
  rewrite !hexDigit_isHexDigit, IH; [reflexivity | |].
  - apply Nat.mod_upper_bound. lia.
  - apply Nat.Div0.div_lt_upper_bound. lia.
Qed.

Lemma allChars_substring p n s :
  allChars p s = true -> allChars p (substring 0 n s) = true.
Proof.
  revert s. induction n as [|n IH]; intros s; destruct s as [|c rest]; simpl; auto.
  intros H. apply andb_prop in H. destruct H as [H1 H2].
  rewrite H1, (IH rest H2). reflexivity.
Qed.

Lemma length_substring_le n s : (String.length (substring 0 n s) <= n)%nat.
Proof.
  revert s. induction n as [|n IH]; intros s; destruct s as [|c rest]; simpl;
    try lia.
  specialize (IH rest). lia.
Qed.

Lemma calculatePrefix_shape url prefix :
  calculatePrefix url = Ok prefix ->
  exists parsed,
    parseUrl url = Some parsed
    /\ prefix = substring 0 512
                  (toHex (stripNonAlphanumeric
                            (toLowerCase (host parsed ++ pathname parsed))))
    /\ (String.length prefix <= 512)%nat
    /\ allChars isHexDigit prefix = true.
Proof.
  unfold calculatePrefix. destruct (parseUrl url) as [parsed|]; [|discriminate].
  intros [= <-]. exists parsed. split; [reflexivity|]. split; [reflexivity|].
  split; [apply length_substring_le | apply allChars_substring, toHex_isHex].
Qed.

Lemma transformRepositoryId_plain flag repositoryId gitHubBaseUrl :
  flag = false \/ gitHubBaseUrl = None \/ gitHubBaseUrl = Some ""
  \/ samePrefixAsCloud gitHubBaseUrl ->
  transformRepositoryId flag repositoryId gitHubBaseUrl
  = Ok (numberToString repositoryId).
Proof.
  unfold transformRepositoryId.
  intros [-> | [-> | [-> | (url & prefix & -> & Hp & Hc)]]].
  - reflexivity.
  - destruct flag; reflexivity.
  - destruct flag; reflexivity.
  - destruct flag; [|reflexivity]. simpl.
    destruct url as [|c rest]; [reflexivity|].
    rewrite Hp, Hc, String.eqb_refl. reflexivity.
Qed.

End Transform.

(** C10, amended: for a repository id that is a safe integer,
    [transformRepositoryId] returns the decimal rendering of the id when the
    flag is off, or the base url is undefined or the empty string, or the
    prefixes computed for the base url and for the GitHub cloud url are
    equal.  For a non-empty base url, with the flag on: when both urls parse
    and the two prefixes differ it returns the prefix of the base url, then
    '-', then the decimal id, where the prefix is the first 512 characters
    of the hex rendering of host + pathname lowercased and stripped of
    everything but letters and digits (so at most 512 characters, all of
    them hex digits); when one of the two urls does not parse the call is
    rejected. *)
Theorem transformRepositoryId_cases
    (parseUrl : string -> option ParsedUrl) (cloud : string)
    (flag : bool) (repositoryId : Z) (gitHubBaseUrl : option string) :
  isSafeInteger repositoryId ->
  let decimal := NilZero.string_of_int (Z.to_int repositoryId) in
  ((flag = false \/ gitHubBaseUrl = None \/ gitHubBaseUrl = Some ""
    \/ samePrefixAsCloud parseUrl cloud gitHubBaseUrl) ->
   transformRepositoryId parseUrl cloud flag repositoryId gitHubBaseUrl
   = Ok decimal)
  /\ (forall url parsed cloudParsed,
       flag = true -> gitHubBaseUrl = Some url -> url <> "" ->
       parseUrl url = Some parsed -> parseUrl cloud = Some cloudParsed ->
       calculatePrefix parseUrl url <> calculatePrefix parseUrl cloud ->
       exists prefix,
         prefix = substring 0 512
                    (toHex (stripNonAlphanumeric
                              (toLowerCase (host parsed ++ pathname parsed))))
         /\ (String.length prefix <= 512)%nat
         /\ allChars isHexDigit prefix = true
         /\ transformRepositoryId parseUrl cloud flag repositoryId gitHubBaseUrl
            = Ok (prefix ++ "-" ++ decimal))
  /\ (forall url,
       flag = true -> gitHubBaseUrl = Some url -> url <> "" ->
       parseUrl url = None \/ parseUrl cloud = None ->
       exists e,
         transformRepositoryId parseUrl cloud flag repositoryId gitHubBaseUrl
         = Err e).
Proof.
  intros _. cbv zeta. fold (numberToString repositoryId).
  split; [apply transformRepositoryId_plain|]. split.
  - intros url parsed cloudParsed -> -> Hne Hu Hc Hdiff.
    destruct (calculatePrefix parseUrl url) as [prefix|e] eqn:Hp;
      [|unfold calculatePrefix in Hp; rewrite Hu in Hp; discriminate].
    destruct (calculatePrefix_shape parseUrl url prefix Hp)
      as (parsed' & Hu' & Hshape & Hlen & Hhex).
    assert (parsed' = parsed) by congruence. subst parsed'.
    exists prefix. split; [exact Hshape|]. split; [exact Hlen|]. split; [exact Hhex|].
    unfold transformRepositoryId. simpl.
    destruct url as [|c rest]; [contradiction|].
    rewrite Hp.
    destruct (calculatePrefix parseUrl cloud) as [cloudPrefix|e] eqn:Hcp;
      [|unfold calculatePrefix in Hcp; rewrite Hc in Hcp; discriminate].
    destruct (String.eqb prefix cloudPrefix) eqn:E; [|reflexivity].
    apply String.eqb_eq in E. congruence.
  - intros url -> -> Hne Hfail.
    unfold transformRepositoryId. simpl.
    destruct url as [|c rest]; [contradiction|].
    unfold calculatePrefix.
    destruct (parseUrl (String c rest)) as [parsed|]; [|eauto].
    destruct Hfail as [Hfail|Hfail]; [discriminate|].
    rewrite Hfail. eauto.
Qed.

(** What [new URL] yields on the urls used below; the empty string is not a
    url, and neither is any string outside this table taken to be one. *)
Definition sampleParseUrl (url : string) : option ParsedUrl :=
  if String.eqb url "https://github.com"
  then Some {| host := "github.com"; pathname := "/" |}
  else if String.eqb url "https://GitHub.com/"
  then Some {| host := "github.com"; pathname := "/" |}
  else if String.eqb url "https://ghe.example.com:8443/Git_Hub/"
  then Some {| host := "ghe.example.com:8443"; pathname := "/Git_Hub/" |}
  else None.

Definition CLOUD : string := "https://github.com".

Example sample_prefix :
  calculatePrefix sampleParseUrl "https://ghe.example.com:8443/Git_Hub/"
  = Ok "6768656578616d706c65636f6d38343433676974687562".
Proof. reflexivity. Qed.

Example sample_cloud_is_not_prefixed :
  transformRepositoryId sampleParseUrl CLOUD true 12345 (Some "https://GitHub.com/")
  = Ok "12345".
Proof. reflexivity. Qed.

Lemma transformRepositoryId_cases_witness :
  exists prefix,
    prefix = substring 0 512
               (toHex (stripNonAlphanumeric
                         (toLowerCase ("ghe.example.com:8443" ++ "/Git_Hub/"))))
    /\ (String.length prefix <= 512)%nat
    /\ allChars isHexDigit prefix = true
    /\ transformRepositoryId sampleParseUrl CLOUD true 12345
         (Some "https://ghe.example.com:8443/Git_Hub/")
       = Ok (prefix ++ "-" ++ "12345").
Proof.
  assert (Hsafe : isSafeInteger 12345) by (unfold isSafeInteger, MAX_SAFE_INTEGER; lia).
  apply (proj1 (proj2 (transformRepositoryId_cases sampleParseUrl CLOUD true 12345
                         (Some "https://ghe.example.com:8443/Git_Hub/") Hsafe))
           "https://ghe.example.com:8443/Git_Hub/"
           {| host := "ghe.example.com:8443"; pathname := "/Git_Hub/" |}
           {| host := "github.com"; pathname := "/" |}).
  - reflexivity.
  - reflexivity.
  - discriminate.
  - reflexivity.
  - reflexivity.
  - vm_compute. discriminate.
Defined.

(** C10 as stated fails on the empty base url: it is not undefined and has
    no prefix, yet the plain id is returned, not a prefixed one. *)
Lemma plain_only_under_the_three_conditions_fails :
  ~ plain_only_under_the_three_conditions sampleParseUrl CLOUD.
Proof.
  intros H.
  assert (Hsafe : isSafeInteger 12345) by (unfold isSafeInteger, MAX_SAFE_INTEGER; lia).
  destruct (H true 12345 (Some "") Hsafe) as [_ Hother].
  destruct Hother as (url & prefix & Hurl & Hprefix & _).
  - intros [Hflag | [Hnone | (url & prefix & Hurl & Hprefix & _)]].
    + discriminate Hflag.
    + discriminate Hnone.
    + injection Hurl as <-. discriminate Hprefix.
  - injection Hurl as <-. discriminate Hprefix.
Qed.

Example empty_base_url_is_plain :
  forall parseUrl cloud,
    transformRepositoryId parseUrl cloud true 12345 (Some "") = Ok "12345".
Proof. reflexivity. Qed.

(** *** Which base urls share a prefix *)

(** The text that is hex-encoded: lowercased, letters and digits only. *)
Definition significant (s : string) : string :=
  stripNonAlphanumeric (toLowerCase s).

Definition unhex (c : ascii) : nat :=
  if isDigit c then nat_of_ascii c - 48 else nat_of_ascii c - 87.

Lemma unhex_hexDigit n : (n < 16)%nat -> unhex (hexDigit n) = n.
Proof.
  intros H. do 16 (destruct n as [|n]; [reflexivity|]). lia.
Qed.

Lemma nibbles_inj n1 n2 :
  (n1 < 256)%nat -> (n2 < 256)%nat ->
  hexDigit (n1 / 16) = hexDigit (n2 / 16) ->
  hexDigit (n1 mod 16) = hexDigit (n2 mod 16) ->
  n1 = n2.
Proof.
  intros B1 B2 Hhi Hlo.
  apply (f_equal unhex) in Hhi. apply (f_equal unhex) in Hlo.
  rewrite !unhex_hexDigit in Hhi by (apply Nat.Div0.div_lt_upper_bound; lia).
  rewrite !unhex_hexDigit in Hlo by (apply Nat.mod_upper_bound; lia).
  pose proof (Nat.div_mod_eq n1 16) as E1.
  pose proof (Nat.div_mod_eq n2 16) as E2.
  lia.
Qed.

Lemma toHex_inj s1 s2 : toHex s1 = toHex s2 -> s1 = s2.
Proof.
  revert s2. induction s1 as [|c1 r1 IH]; intros [|c2 r2]; cbn [toHex];
    try discriminate; [reflexivity|].
  intros H. injection H as Hhi Hlo Hrest.
  pose proof (nibbles_inj _ _ (nat_ascii_bounded c1) (nat_ascii_bounded c2) Hhi Hlo)
    as Hn.
  f_equal; [|apply IH; exact Hrest].
  rewrite <- (ascii_nat_embedding c1), <- (ascii_nat_embedding c2), Hn. reflexivity.
Qed.

Lemma substring_toHex k s :
  substring 0 (2 * k) (toHex s) = toHex (substring 0 k s).
Proof.
  revert s. induction k as [|k IH]; intros s.
  - destruct s; reflexivity.
  - replace (2 * S k)%nat with (S (S (2 * k))) by lia.
    destruct s as [|c rest]; [reflexivity|].
    cbn [toHex substring]. rewrite IH. reflexivity.
Qed.

Lemma toLowerCase_app s1 s2 :
  toLowerCase (s1 ++ s2) = toLowerCase s1 ++ toLowerCase s2.
Proof.
  induction s1 as [|c r IH]; [reflexivity|].
  rewrite JsString.append_cons. cbn [toLowerCase].
  rewrite JsString.append_cons, IH. reflexivity.
Qed.

Lemma stripNonAlphanumeric_app s1 s2 :
  stripNonAlphanumeric (s1 ++ s2)
  = stripNonAlphanumeric s1 ++ stripNonAlphanumeric s2.
Proof.
  induction s1 as [|c r IH]; [reflexivity|].
  rewrite JsString.append_cons. cbn [stripNonAlphanumeric].
  destruct (isWordNotUnderscore c); rewrite IH; reflexivity.
Qed.

Lemma significant_app s1 s2 :
  significant (s1 ++ s2) = significant s1 ++ significant s2.
Proof.
  unfold significant. rewrite toLowerCase_app, stripNonAlphanumeric_app. reflexivity.
Qed.

Lemma lowerChar_punctuation c :
  isWordNotUnderscore c = false -> isWordNotUnderscore (lowerChar c) = false.
Proof.
  unfold lowerChar. intros H.
  destruct (isUpper c) eqn:E; [|exact H].
  unfold isWordNotUnderscore in H. rewrite E in H. discriminate H.
Qed.

(** Text without a letter or digit contributes nothing. *)
Lemma significant_punctuation s :
  allChars (fun c => negb (isWordNotUnderscore c)) s = true -> significant s = "".
Proof.
  unfold significant. induction s as [|c r IH]; [reflexivity|].
  cbn [allChars toLowerCase stripNonAlphanumeric]. intros H.
  apply andb_prop in H. destruct H as [Hc Hr].
  apply negb_true_iff in Hc. rewrite (lowerChar_punctuation c Hc). auto.
Qed.

Lemma calculatePrefix_significant parseUrl url parsed :
  parseUrl url = Some parsed ->
  calculatePrefix parseUrl url
  = Ok (toHex (substring 0 256 (significant (host parsed ++ pathname parsed)))).
Proof.
  intros H. unfold calculatePrefix. rewrite H.
  change 512%nat with (2 * 256)%nat. rewrite substring_toHex. reflexivity.
Qed.

(** X1: two base urls that parse get the same prefix exactly when host plus
    pathname agree on their first 256 significant characters, the
    significant characters being the letters and digits, lowercased. *)
Theorem same_prefix_iff_same_significant_text
    (parseUrl : string -> option ParsedUrl) (url1 url2 : string)
    (parsed1 parsed2 : ParsedUrl) :
  parseUrl url1 = Some parsed1 ->
  parseUrl url2 = Some parsed2 ->
  (calculatePrefix parseUrl url1 = calculatePrefix parseUrl url2 <->
   substring 0 256 (significant (host parsed1 ++ pathname parsed1))
   = substring 0 256 (significant (host parsed2 ++ pathname parsed2))).
Proof.
  intros H1 H2.
  rewrite (calculatePrefix_significant parseUrl url1 parsed1 H1).
  rewrite (calculatePrefix_significant parseUrl url2 parsed2 H2).
  split.
  - intros [= H]. apply toHex_inj. exact H.
  - intros ->. reflexivity.
Qed.

Definition slashTable (url : string) : option ParsedUrl :=
  if String.eqb url "https://myserver.com/blah"
  then Some {| host := "myserver.com"; pathname := "/blah" |}
  else if String.eqb url "https://myserver.com/blah/"
  then Some {| host := "myserver.com"; pathname := "/blah/" |}
  else None.

Lemma same_prefix_iff_same_significant_text_witness :
  calculatePrefix slashTable "https://myserver.com/blah"
  = calculatePrefix slashTable "https://myserver.com/blah/" <->
  substring 0 256 (significant ("myserver.com" ++ "/blah"))
  = substring 0 256 (significant ("myserver.com" ++ "/blah/")).
Proof.
  apply (same_prefix_iff_same_significant_text slashTable
           "https://myserver.com/blah" "https://myserver.com/blah/"
           {| host := "myserver.com"; pathname := "/blah" |}
           {| host := "myserver.com"; pathname := "/blah/" |}).
  - reflexivity.
  - reflexivity.
Defined.

(** X2: punctuation appended to the path, a trailing slash for one, does not
    change the prefix: a server reached as [.../blah] and as [.../blah/] is
    one server. *)
Theorem trailing_punctuation_keeps_the_prefix
    (parseUrl : string -> option ParsedUrl) (url1 url2 : string)
    (parsed1 parsed2 : ParsedUrl) (trailing : string) :
  parseUrl url1 = Some parsed1 ->
  parseUrl url2 = Some parsed2 ->
  host parsed2 = host parsed1 ->
  pathname parsed2 = pathname parsed1 ++ trailing ->
  allChars (fun c => negb (isWordNotUnderscore c)) trailing = true ->
  calculatePrefix parseUrl url2 = calculatePrefix parseUrl url1.
Proof.
  intros H1 H2 Hhost Hpath Htrail.
  rewrite (calculatePrefix_significant parseUrl url1 parsed1 H1).
  rewrite (calculatePrefix_significant parseUrl url2 parsed2 H2).
  rewrite Hhost, Hpath, <- JsString.append_assoc, significant_app,
    (significant_punctuation trailing Htrail), JsString.append_nil_r.
  reflexivity.
Qed.

Lemma trailing_punctuation_keeps_the_prefix_witness :
  calculatePrefix slashTable "https://myserver.com/blah/"
  = calculatePrefix slashTable "https://myserver.com/blah".
Proof.
  apply (trailing_punctuation_keeps_the_prefix slashTable
           "https://myserver.com/blah" "https://myserver.com/blah/"
           {| host := "myserver.com"; pathname := "/blah" |}
           {| host := "myserver.com"; pathname := "/blah/" |} "/").
  - reflexivity.
  - reflexivity.
  - reflexivity.
  - reflexivity.
  - reflexivity.
Defined.

(** *** Reading a transformed id back *)

Lemma allChars_app p s1 s2 :
  allChars p (s1 ++ s2) = allChars p s1 && allChars p s2.
Proof.
  induction s1 as [|c r IH]; [reflexivity|].
  rewrite JsString.append_cons. cbn [allChars]. rewrite IH, andb_assoc. reflexivity.
Qed.

(** The text before and after the first dash. *)
Fixpoint splitAtDash (s : string) : option (string * string) :=
  match s with
  | EmptyString => None
  | String c rest =>
      if Ascii.eqb c "-" then Some (EmptyString, rest)
      else match splitAtDash rest with
           | Some (before, after) => Some (String c before, after)
           | None => None
           end
  end.

(** The integer a decimal numeral denotes. *)
Definition readNumber (s : string) : option Z :=
  option_map Z.of_int (NilZero.int_of_string s).

(** How a consumer reads a transformed id of a non-negative repository id:
    the prefix, when there is a dash, and the repository id. *)
Definition untransform (r : string) : option (option string * Z) :=
  match splitAtDash r with
  | Some (prefix, digits) => option_map (fun n => (Some prefix, n)) (readNumber digits)
  | None => option_map (fun n => (None, n)) (readNumber r)
  end.

(** What a call did with the id: returned it plain ([None]), or put the
    prefix of its base url and a dash before it. *)
Definition applies (parseUrl : string -> option ParsedUrl)
    (gitHubBaseUrl : option string) (repositoryId : Z) (r : string)
    (applied : option string) : Prop :=
  match applied with
  | None => r = NilZero.string_of_int (Z.to_int repositoryId)
  | Some prefix =>
      exists url,
        gitHubBaseUrl = Some url
        /\ calculatePrefix parseUrl url = Ok prefix
        /\ r = prefix ++ "-" ++ NilZero.string_of_int (Z.to_int repositoryId)
  end.

Lemma digits_of_uint d : allChars isDigit (NilEmpty.string_of_uint d) = true.
Proof. induction d; simpl; auto. Qed.

Lemma numberToString_digits n :
  0 <= n -> allChars isDigit (numberToString n) = true.
Proof.
  intros H. unfold numberToString. destruct n as [|p|p]; [reflexivity | | lia].
  simpl. unfold NilZero.string_of_uint.
  destruct (Pos.to_uint p); try apply digits_of_uint. reflexivity.
Qed.

Lemma to_int_not_nil n : Z.to_int n <> Decimal.Pos Decimal.Nil
                         /\ Z.to_int n <> Decimal.Neg Decimal.Nil.
Proof.
  destruct n as [|p|p]; simpl; split; try discriminate;
    intros [= H]; exact (DecimalPos.Unsigned.to_uint_nonnil p H).
Qed.

Lemma readNumber_numberToString n : readNumber (numberToString n) = Some n.
Proof.
  unfold readNumber, numberToString.
  destruct (to_int_not_nil n) as [H1 H2].
  rewrite (NilZero.isi (Z.to_int n) H1 H2). simpl. rewrite DecimalZ.of_to. reflexivity.
Qed.

Lemma splitAtDash_digits s : allChars isDigit s = true -> splitAtDash s = None.
Proof.
  induction s as [|c rest IH]; [reflexivity|]. cbn [allChars splitAtDash].
  intros H. apply andb_prop in H. destruct H as [Hc Hrest].
  destruct (Ascii.eqb c "-") eqn:E.
  - apply Ascii.eqb_eq in E. subst c. discriminate Hc.
  - rewrite (IH Hrest). reflexivity.
Qed.

Lemma splitAtDash_hex prefix rest :
  allChars isHexDigit prefix = true ->
  splitAtDash (prefix ++ "-" ++ rest) = Some (prefix, rest).
Proof.
  induction prefix as [|c p IH]; [reflexivity|].
  rewrite JsString.append_cons. cbn [allChars splitAtDash].
  intros H. apply andb_prop in H. destruct H as [Hc Hp].
  destruct (Ascii.eqb c "-") eqn:E.
  - apply Ascii.eqb_eq in E. subst c. discriminate Hc.
  - rewrite (IH Hp). reflexivity.
Qed.

Lemma untransform_plain n :
  0 <= n -> untransform (numberToString n) = Some (None, n).
Proof.
  intros H. unfold untransform.
  rewrite (splitAtDash_digits _ (numberToString_digits n H)).
  rewrite readNumber_numberToString. reflexivity.
Qed.

Lemma untransform_prefixed prefix n :
  allChars isHexDigit prefix = true ->
  untransform (prefix ++ "-" ++ numberToString n) = Some (Some prefix, n).
Proof.
  intros H. unfold untransform.
  rewrite (splitAtDash_hex prefix _ H), readNumber_numberToString. reflexivity.
Qed.

Lemma transformRepositoryId_applies parseUrl cloud flag repositoryId gitHubBaseUrl r :
  0 <= repositoryId ->
  transformRepositoryId parseUrl cloud flag repositoryId gitHubBaseUrl = Ok r ->
  exists applied,
    untransform r = Some (applied, repositoryId)
    /\ applies parseUrl gitHubBaseUrl repositoryId r applied.
Proof.
  intros Hpos. unfold transformRepositoryId.
  assert (Hplain : @Ok Failure string (numberToString repositoryId) = Ok r ->
                   exists applied,
                     untransform r = Some (applied, repositoryId)
                     /\ applies parseUrl gitHubBaseUrl repositoryId r applied).
  { intros [= <-]. exists None. split; [apply untransform_plain; exact Hpos | reflexivity]. }
  destruct (negb flag); [exact Hplain|].
  destruct gitHubBaseUrl as [[|c rest]|]; try exact Hplain.
  destruct (calculatePrefix parseUrl (String c rest)) as [prefix|e] eqn:Hp;
    [|discriminate].
  destruct (calculatePrefix parseUrl cloud) as [cloudPrefix|e]; [|discriminate].
  destruct (String.eqb prefix cloudPrefix); [exact Hplain|].
  intros [= <-]. exists (Some prefix).
  destruct (calculatePrefix_shape parseUrl _ _ Hp) as (_ & _ & _ & _ & Hhex).
  split; [apply untransform_prefixed; exact Hhex|].
  exists (String c rest). split; [reflexivity|]. split; [exact Hp | reflexivity].
Qed.

(** X3: a transformed id reads back.  For repository ids that are
    non-negative safe integers, whatever the flag and the base urls: the
    string a call returns splits at its first dash into the prefix the call
    applied and the decimal id it was given, and has no dash when the id was
    returned plain.  So two calls that return the same string were given
    the same repository id and both returned it plain or both put the same
    prefix before it: a prefixed id is never a plain id of any repository. *)
Theorem transformed_ids_keep_repositories_apart
    (parseUrl : string -> option ParsedUrl) (cloud : string)
    (flag1 flag2 : bool) (a b : Z) (url1 url2 : option string) (r : string) :
  0 <= a <= MAX_SAFE_INTEGER ->
  0 <= b <= MAX_SAFE_INTEGER ->
  transformRepositoryId parseUrl cloud flag1 a url1 = Ok r ->
  transformRepositoryId parseUrl cloud flag2 b url2 = Ok r ->
  a = b
  /\ exists applied,
       untransform r = Some (applied, a)
       /\ applies parseUrl url1 a r applied
       /\ applies parseUrl url2 b r applied.
Proof.
  intros [Ha _] [Hb _] H1 H2.
  destruct (transformRepositoryId_applies _ _ _ _ _ _ Ha H1) as (ap1 & U1 & A1).
  destruct (transformRepositoryId_applies _ _ _ _ _ _ Hb H2) as (ap2 & U2 & A2).
  rewrite U1 in U2. injection U2 as Hap Hab. subst ap2.
  split; [exact Hab|]. exists ap1. auto.
Qed.

(** Three urls: the cloud, and one server reached with and without a
    trailing slash. *)
Definition serverTable (url : string) : option ParsedUrl :=
  if String.eqb url "https://github.com"
  then Some {| host := "github.com"; pathname := "/" |}
  else if String.eqb url "https://myserver.com/blah"
  then Some {| host := "myserver.com"; pathname := "/blah" |}
  else if String.eqb url "https://myserver.com/blah/"
  then Some {| host := "myserver.com"; pathname := "/blah/" |}
  else None.

Lemma transformed_ids_keep_repositories_apart_witness :
  12345 = 12345
  /\ exists applied,
       untransform "6d79736572766572636f6d626c6168-12345" = Some (applied, 12345)
       /\ applies serverTable (Some "https://myserver.com/blah") 12345
            "6d79736572766572636f6d626c6168-12345" applied
       /\ applies serverTable (Some "https://myserver.com/blah/") 12345
            "6d79736572766572636f6d626c6168-12345" applied.
Proof.
  apply (transformed_ids_keep_repositories_apart serverTable "https://github.com"
           true true 12345 12345
           (Some "https://myserver.com/blah") (Some "https://myserver.com/blah/")).
  - unfold MAX_SAFE_INTEGER. lia.
  - unfold MAX_SAFE_INTEGER. lia.
  - reflexivity.
  - reflexivity.
Defined.

Example untransform_examples :
  untransform "12345" = Some (None, 12345)
  /\ untransform "6d79736572766572636f6d626c6168-12345"
     = Some (Some "6d79736572766572636f6d626c6168", 12345)
  /\ transformRepositoryId serverTable "https://github.com" false 12345
       (Some "https://myserver.com/blah") = Ok "12345"
  /\ transformRepositoryId serverTable "https://github.com" true 12345
       (Some "https://myserver.com/blah")
     = Ok "6d79736572766572636f6d626c6168-12345".
Proof. repeat split; reflexivity. Qed.

End Transform.

(** ** Jira admin permissions middleware

    The source file of [fetchAndSaveUserJiraAdminStatus] and
    [jiraAdminPermissionsMiddleware].  [models/jira-client] and the feature
    flags are collaborators outside the tree: the Jira client is a pair of
    parameters, the flag a boolean input. *)

Module JiraAdmin.

Inductive LogEntry : Type :=
| InfoAdmin (isAdmin : bool) (msg : string)
| Info (msg : string)
| Error (err : string) (msg : string).

(** What the two functions touch of the request: [req.session.isJiraAdmin]
    ([None] for [undefined]) and [req.log].  [asked] is a ghost trace of the
    account ids Jira answered for. *)
Record Request : Type := mkRequest {
  isJiraAdmin : option bool;
  log : list LogEntry;
  asked : list string
}.

(** The middleware either hands over to the next handler or answers. *)
Inductive Outcome : Type :=
| Next
| Send (status : Z) (body : string).

Definition ADMIN_PERMISSION : string := "ADMINISTER".

(** [array.includes(s)] on strings. *)
Definition includes (s : string) (l : list string) : bool :=
  existsb (String.eqb s) l.

Section Middleware.

Variables Installation JiraClient : Type.
(** [JiraClient.getNewClient(installation, req.log)] *)
Variable getNewClient : Installation -> result string JiraClient.
(** [jiraClient.checkAdminPermissions(userAccountId)], read up to
    [permissions.data.globalPermissions]; [Err] is a rejected call or an
    answer without that array. *)
Variable checkAdminPermissions : JiraClient -> string -> result string (list string).

Definition FAILED : string := "Failed to fetch Jira Admin rights".

(** [sub] is [claims.sub], [None] for [undefined].  The promise never
    rejects: every failure ends in the [catch]. *)
Definition fetchAndSaveUserJiraAdminStatus (req : Request) (sub : option string)
    (installation : Installation) : Request :=
  match isJiraAdmin req with
  | Some _ => req
  | None =>
      match sub with
      | None | Some EmptyString => req
      | Some userAccountId =>
          match getNewClient installation with
          | Err err =>
              {| isJiraAdmin := None;
                 log := (log req ++ [Error err FAILED])%list;
                 asked := asked req |}
          | Ok jiraClient =>
              match checkAdminPermissions jiraClient userAccountId with
              | Err err =>
                  {| isJiraAdmin := None;
                     log := (log req ++ [Error err FAILED])%list;
                     asked := asked req |}
              | Ok globalPermissions =>
                  let isAdmin := includes ADMIN_PERMISSION globalPermissions in
                  {| isJiraAdmin := Some isAdmin;
                     log := (log req ++ [InfoAdmin isAdmin "Admin permissions set"])%list;
                     asked := (asked req ++ [userAccountId])%list |}
              end
          end
      end
  end.

Definition NOT_FOUND : string :=
  "Forbidden - User Jira permissions have not been found.".
Definition NOT_ADMIN : string :=
  "Forbidden - User does not have Jira administer permissions.".

(** [jiraAdminCheck] is what the JIRA_ADMIN_CHECK flag resolves to. *)
Definition jiraAdminPermissionsMiddleware (jiraAdminCheck : bool) (req : Request)
  : Outcome * Request :=
  if negb jiraAdminCheck then (Next, req)
  else
    match isJiraAdmin req with
    | None =>
        (Send 403 NOT_FOUND,
         {| isJiraAdmin := isJiraAdmin req;
            log := (log req ++ [Info "No Jira user permissions found"])%list;
            asked := asked req |})
    | Some false =>
        (Send 403 NOT_ADMIN,
         {| isJiraAdmin := isJiraAdmin req;
            log := (log req ++ [Info "User does not have Jira admin permissions."])%list;
            asked := asked req |})
    | Some true => (Next, req)
    end.

(** Jira vouches for the account: a client is obtained and the permissions
    it reports hold ADMINISTER. *)
Definition vouchedFor (sub : option string) (installation : Installation) : Prop :=
  exists userAccountId jiraClient globalPermissions,
    sub = Some userAccountId
    /\ userAccountId <> ""
    /\ getNewClient installation = Ok jiraClient
    /\ checkAdminPermissions jiraClient userAccountId = Ok globalPermissions
    /\ ADMIN_PERMISSION ∈ globalPermissions.

Lemma includes_elem_of s l : includes s l = true <-> s ∈ l.
Proof.
  unfold includes. rewrite existsb_exists. split.
  - intros (x & Hin & Hx). apply String.eqb_eq in Hx. subst x.
    apply list_elem_of_In. exact Hin.
  - intros Hin. exists s. split; [apply list_elem_of_In; exact Hin | apply String.eqb_refl].
Qed.

Lemma fetched_status req sub installation :
  isJiraAdmin req = None ->
  (isJiraAdmin (fetchAndSaveUserJiraAdminStatus req sub installation) = Some true
   <-> vouchedFor sub installation).
Proof.
  intros Hnone. unfold fetchAndSaveUserJiraAdminStatus, vouchedFor. rewrite Hnone.
  destruct sub as [[|c rest]|].
  - split; [congruence|]. intros (u & _ & _ & [= <-] & Hne & _). contradiction.
  - destruct (getNewClient installation) as [client|err] eqn:Hclient.
    + destruct (checkAdminPermissions client (String c rest)) as [perms|err] eqn:Hperms.
      * simpl. split.
        -- intros [= H]. apply includes_elem_of in H.
           exists (String c rest), client, perms.
           split; [reflexivity|]. split; [discriminate|]. auto.
        -- intros (u & cl & ps & [= <-] & _ & [= <-] & Hps & Hin).
           rewrite Hperms in Hps. injection Hps as <-.
           f_equal. apply includes_elem_of. exact Hin.
      * simpl. split; [discriminate|].
        intros (u & cl & ps & [= <-] & _ & [= <-] & Hps & _). congruence.
    + simpl. split; [discriminate|].
      intros (u & cl & ps & _ & _ & Hcl & _). discriminate Hcl.
  - split; [congruence|]. intros (u & _ & _ & Hs & _). discriminate Hs.
Qed.

(** X4: the admin gate fails closed.  With the check switched on, a request
    that went through [fetchAndSaveUserJiraAdminStatus] passes the
    middleware exactly when the session already said admin, or said nothing
    and Jira vouches for the account; every other request, a failed Jira
    lookup and a missing account id included, is answered 403.  With the
    check switched off every request passes. *)
Theorem admin_gate_fails_closed
    (jiraAdminCheck : bool) (req : Request) (sub : option string)
    (installation : Installation) :
  let fetched := fetchAndSaveUserJiraAdminStatus req sub installation in
  let outcome := (jiraAdminPermissionsMiddleware jiraAdminCheck fetched).1 in
  (outcome = Next <->
   jiraAdminCheck = false
   \/ isJiraAdmin req = Some true
   \/ (isJiraAdmin req = None /\ vouchedFor sub installation))
  /\ (outcome = Next \/ outcome = Send 403 NOT_FOUND \/ outcome = Send 403 NOT_ADMIN).
Proof.
  cbv zeta. unfold jiraAdminPermissionsMiddleware.
  destruct jiraAdminCheck; simpl; [|split; [split; auto | auto]].
  destruct (isJiraAdmin req) as [b|] eqn:Hs.
  - assert (Hf : fetchAndSaveUserJiraAdminStatus req sub installation = req).
    { unfold fetchAndSaveUserJiraAdminStatus. rewrite Hs. reflexivity. }
    rewrite Hf, Hs. destruct b; simpl.
    + split; [split; auto | auto].
    + split; [|auto]. split; [discriminate|].
      intros [H|[H|[H _]]]; discriminate H.
  - pose proof (fetched_status req sub installation Hs) as Hiff.
    destruct (isJiraAdmin (fetchAndSaveUserJiraAdminStatus req sub installation))
      as [[|]|]; simpl.
    + split; [|auto]. split; [|reflexivity].
      intros _. right. right. split; [reflexivity | apply Hiff; reflexivity].
    + split; [|auto]. split; [discriminate|].
      intros [H|[H|[_ H]]]; try discriminate H. apply Hiff in H. discriminate H.
    + split; [|auto]. split; [discriminate|].
      intros [H|[H|[_ H]]]; try discriminate H. apply Hiff in H. discriminate H.
Qed.

(** A session served over several requests. *)
Fixpoint fetchAll (req : Request) (calls : list (option string * Installation))
  : Request :=
  match calls with
  | [] => req
  | (sub, installation) :: rest =>
      fetchAll (fetchAndSaveUserJiraAdminStatus req sub installation) rest
  end.



End Middleware.

(** A Jira in which alice administers and bob does not; carol's lookup
    fails. *)
Definition demoPermissions (_ : unit) (userAccountId : string)
  : result string (list string) :=
  if String.eqb userAccountId "alice" then Ok ["BROWSE"; "ADMINISTER"]
  else if String.eqb userAccountId "bob" then Ok ["BROWSE"]
  else Err "timeout".

Definition demoClient (_ : unit) : result string unit := Ok tt.

Definition fresh : Request := {| isJiraAdmin := None; log := []; asked := [] |}.

Example demo_gate :
  let gate sub :=
    (jiraAdminPermissionsMiddleware true
       (fetchAndSaveUserJiraAdminStatus unit unit demoClient demoPermissions
          fresh sub tt)).1 in
  gate (Some "alice") = Next
  /\ gate (Some "bob") = Send 403 NOT_ADMIN
  /\ gate (Some "carol") = Send 403 NOT_FOUND
  /\ gate (Some "") = Send 403 NOT_FOUND
  /\ gate None = Send 403 NOT_FOUND.
Proof. repeat split. Qed.


Example demo_settled_on_bob :
  isJiraAdmin (fetchAll unit unit demoClient demoPermissions fresh
                 [(Some "carol", tt); (Some "bob", tt); (Some "alice", tt)])
  = Some false.
Proof. reflexivity. Qed.

End JiraAdmin.
